(** * TalentParse: the extraction and scoring pipeline of [app.py]

    A shallow embedding of [src/app.py].  Python strings are sequences of
    code points, dictionaries are insertion-ordered association lists, the
    file system and the extraction cache are explicit state, and every
    external collaborator (PyMuPDF, pdf2image, Tesseract, python-docx, the
    language model behind [ollama.chat], [hashlib], [re], [json]) is a
    field of a [World] record, so that the functions below can be run on a
    concrete world. *)

From Stdlib Require Import QArith.
From Stdlib Require Import Sorting.Sorted Sorting.Permutation.
From Stdlib Require Import Strings.String Strings.Ascii.
From stdpp Require Import gmap list.

Set Warnings "-register-all".
Local Open Scope nat_scope.
Local Open Scope list_scope.

(** ** Python [str] *)

(** A character is a Unicode code point; a [str] is a sequence of them. *)
Definition char := N.
Definition str := list N.

(** A string literal of the source, read as Latin-1 code points. *)
Definition lit (s : string) : str :=
  List.map N_of_ascii (list_ascii_of_string s).

Definition ch_nl : char := 10%N.
Definition ch_cr : char := 13%N.

Definition str_eqb (a b : str) : bool := bool_decide (a = b).

(** [str.isspace] on one character: the code points Python treats as
    whitespace in [str.strip] and [str.split]. *)
Definition isspace (c : char) : bool :=
  ((9 <=? c) && (c <=? 13) || (28 <=? c) && (c <=? 32)
   || (c =? 133) || (c =? 160) || (c =? 5760)
   || (8192 <=? c) && (c <=? 8202)
   || (c =? 8232) || (c =? 8233) || (c =? 8239) || (c =? 8287)
   || (c =? 12288))%N.

Fixpoint lstrip (s : str) : str :=
  match s with
  | c :: s' => if isspace c then lstrip s' else s
  | [] => []
  end.

Definition rstrip (s : str) : str := rev (lstrip (rev s)).

(** [s.strip()] *)
Definition strip (s : str) : str := lstrip (rstrip s).

(** [sep.join(parts)] *)
Fixpoint join (sep : str) (parts : list str) : str :=
  match parts with
  | [] => []
  | [p] => p
  | p :: rest => p ++ sep ++ join sep rest
  end.

(** Truth value of a [str]: non-empty. *)
Definition str_truthy (s : str) : bool :=
  match s with [] => false | _ => true end.

(** [s.find(c)] for a one-character needle; [None] stands for -1. *)
Fixpoint find_char (c : char) (s : str) : option nat :=
  match s with
  | [] => None
  | x :: s' => if (x =? c)%N then Some 0
               else option_map S (find_char c s')
  end.

(** [s.rfind(c)] *)
Definition rfind_char (c : char) (s : str) : option nat :=
  option_map (fun i => length s - 1 - i) (find_char c (rev s)).

(** [s[a:b]] for [0 <= a <= b]. *)
Definition slice (a b : nat) (s : str) : str := firstn (b - a) (skipn a s).

(** Lower-casing of the ASCII letters.  The source calls [str.lower] on a
    file suffix only to compare it with [.pdf], [.docx] and [.txt]; no
    character outside [A-Z] lower-cases to a letter of these three
    suffixes, so the comparison sees the same result. *)
Definition lower_char (c : char) : char :=
  if ((65 <=? c) && (c <=? 90))%N then (c + 32)%N else c.

Definition lower (s : str) : str := List.map lower_char s.

(** ** Paths *)

Definition path := str.

Definition ch_slash : char := 47%N.
Definition ch_dot : char := 46%N.

(** [Path.name]: the final component. *)
Definition path_name (p : path) : str :=
  match rfind_char ch_slash p with
  | Some i => skipn (S i) p
  | None => p
  end.

(** [Path.suffix]: from the last dot of the name, unless that dot is the
    first or the last character of the name. *)
Definition suffix (p : path) : str :=
  let name := path_name p in
  match rfind_char ch_dot name with
  | Some i => if (0 <? i) && (S i <? length name) then skipn i name else []
  | None => []
  end.

(** [Path(dir) / name] *)
Definition path_join (dir name : str) : path := dir ++ [ch_slash] ++ name.

(** ** Text-mode file input and output

    [Path.read_text] and [Path.write_text] open the file in text mode with
    the default [newline=None].  On input the line endings CR LF and CR
    both become LF; on output LF becomes [os.linesep]. *)

Inductive platform := Posix | Windows.

Definition os_linesep (os : platform) : str :=
  match os with Posix => [ch_nl] | Windows => [ch_cr; ch_nl] end.

Fixpoint universal_newlines (s : str) : str :=
  match s with
  | [] => []
  | c :: s' =>
      if (c =? ch_cr)%N then
        match s' with
        | d :: s'' => if (d =? ch_nl)%N then ch_nl :: universal_newlines s''
                      else ch_nl :: universal_newlines s'
        | [] => [ch_nl]
        end
      else c :: universal_newlines s'
  end.

Fixpoint write_newlines (os : platform) (s : str) : str :=
  match s with
  | [] => []
  | c :: s' => (if (c =? ch_nl)%N then os_linesep os else [c])
               ++ write_newlines os s'
  end.

(** A lone surrogate cannot be encoded as UTF-8: [write_text] raises
    [UnicodeEncodeError] on a text that holds one. *)
Definition is_surrogate (c : char) : bool := ((55296 <=? c) && (c <=? 57343))%N.

Definition encodable (s : str) : bool := forallb (fun c => negb (is_surrogate c)) s.

(** [s.splitlines()] *)
Definition is_linebreak (c : char) : bool :=
  ((10 <=? c) && (c <=? 13) || (28 <=? c) && (c <=? 30)
   || (c =? 133) || (c =? 8232) || (c =? 8233))%N.

Fixpoint splitlines_from (cur : str) (s : str) : list str :=
  match s with
  | [] => match cur with [] => [] | _ => [rev cur] end
  | c :: s' =>
      if is_linebreak c then
        rev cur ::
        match s' with
        | d :: s'' => if (c =? ch_cr)%N && (d =? ch_nl)%N
                      then splitlines_from [] s''
                      else splitlines_from [] s'
        | [] => []
        end
      else splitlines_from (c :: cur) s'
  end.

Definition splitlines (s : str) : list str := splitlines_from [] s.

(** [s.split()]: the words between runs of whitespace. *)
Fixpoint split_from (cur : str) (s : str) : list str :=
  match s with
  | [] => match cur with [] => [] | _ => [rev cur] end
  | c :: s' =>
      if isspace c then
        match cur with
        | [] => split_from [] s'
        | _ => rev cur :: split_from [] s'
        end
      else split_from (c :: cur) s'
  end.

Definition split_ws (s : str) : list str := split_from [] s.

(** ** JSON values and dictionaries

    What [json.loads] builds: [None], [bool], numbers, [str], [list] and
    [dict].  A finite number is kept by its exact value ([JNum q] stands
    for an [int] or a finite [float]); [json.loads] also accepts the
    literals [NaN], [Infinity] and [-Infinity], which give the floats
    [JNaN] and [JInf].  A [dict] keeps its keys in insertion order. *)

Inductive json :=
| JNull
| JBool (b : bool)
| JNum (q : Q)
| JStr (s : str)
| JArr (l : list json)
| JObj (d : list (str * json))
| JNaN
| JInf (negative : bool).

Definition dict := list (str * json).

(** [d.get(k)] / [d[k]]: [None] when the key is absent. *)
Fixpoint dict_get (k : str) (d : dict) : option json :=
  match d with
  | [] => None
  | (k', v) :: d' => if str_eqb k' k then Some v else dict_get k d'
  end.

(** [k in d] *)
Definition dict_has (k : str) (d : dict) : bool :=
  match dict_get k d with Some _ => true | None => false end.

(** [d[k] = v]: an existing key keeps its place, a new key goes last. *)
Fixpoint dict_set (k : str) (v : json) (d : dict) : dict :=
  match d with
  | [] => [(k, v)]
  | (k', v') :: d' => if str_eqb k' k then (k, v) :: d'
                      else (k', v') :: dict_set k v d'
  end.

(** [{**a, **b}] *)
Definition dict_merge (a b : dict) : dict :=
  fold_left (fun acc kv => dict_set (fst kv) (snd kv) acc) b a.

(** Truth value of a JSON value, as [not x] sees it. *)
Definition truthy (v : json) : bool :=
  match v with
  | JNull => false
  | JBool b => b
  | JNum q => negb (Qeq_bool q 0)
  | JStr s => str_truthy s
  | JArr l => match l with [] => false | _ => true end
  | JObj d => match d with [] => false | _ => true end
  | JNaN => true
  | JInf _ => true
  end.

(** [not d.get(k)] *)
Definition get_falsy (k : str) (d : dict) : bool :=
  match dict_get k d with Some v => negb (truthy v) | None => true end.

(** *** Ordering of sort keys

    [a < b] as [list.sort] evaluates it on two keys.  Numbers ([bool] is a
    number) compare by value; every comparison with [NaN] is false.
    Strings compare by code points.  Lists compare by their first pair of
    unequal elements, or by length when one is a prefix of the other.
    [None] is the [TypeError] Python raises for [None], for dictionaries
    and for operands of different kinds. *)

(** The finite number a value stands for. *)
Definition as_number (v : json) : option Q :=
  match v with
  | JNum q => Some q
  | JBool b => Some (if b then 1%Q else 0%Q)
  | _ => None
  end.

(** A number as [float] has it: finite, not a number, or infinite. *)
Inductive number :=
| Finite (q : Q)
| NaN
| Infinite (negative : bool).

Definition as_float (v : json) : option number :=
  match v with
  | JNum q => Some (Finite q)
  | JBool b => Some (Finite (if b then 1%Q else 0%Q))
  | JNaN => Some NaN
  | JInf negative => Some (Infinite negative)
  | _ => None
  end.

Definition Qlt_bool (x y : Q) : bool := negb (Qle_bool y x).

Definition number_lt (x y : number) : bool :=
  match x, y with
  | NaN, _ => false
  | _, NaN => false
  | Finite a, Finite b => Qlt_bool a b
  | Infinite true, Infinite true => false
  | Infinite true, _ => true
  | _, Infinite true => false
  | Infinite false, _ => false
  | Finite _, Infinite false => true
  end.

(** Equality of two elements as a list comparison tests it: by identity
    first, then by [==].  The [NaN] of [json.loads] is one object, so
    inside a list it equals itself. *)
Definition number_eq (x y : number) : bool :=
  match x, y with
  | Finite a, Finite b => Qeq_bool a b
  | NaN, NaN => true
  | Infinite m, Infinite n => Bool.eqb m n
  | _, _ => false
  end.

Fixpoint str_ltb (a b : str) : bool :=
  match a, b with
  | [], [] => false
  | [], _ :: _ => true
  | _ :: _, [] => false
  | x :: a', y :: b' => (x <? y)%N || ((x =? y)%N && str_ltb a' b')
  end.

Fixpoint elem_eq (a b : json) {struct a} : bool :=
  match as_float a, as_float b with
  | Some x, Some y => number_eq x y
  | _, _ =>
      match a, b with
      | JNull, JNull => true
      | JStr s, JStr t => str_eqb s t
      | JArr xs, JArr ys =>
          (fix all_eq (xs ys : list json) : bool :=
             match xs, ys with
             | [], [] => true
             | x :: xs', y :: ys' => elem_eq x y && all_eq xs' ys'
             | _, _ => false
             end) xs ys
      | JObj d, JObj e =>
          (* two dictionaries are equal when they have the same keys and
             equal values under each key *)
          (fix values_eq (d : list (str * json)) (seen : list str) : bool :=
             match d with
             | [] => true
             | (k, v) :: d' =>
                 if existsb (str_eqb k) seen then values_eq d' seen
                 else match dict_get k e with
                      | Some v' => elem_eq v v'
                      | None => false
                      end && values_eq d' (k :: seen)
             end) d []
          && forallb (fun kv => dict_has (fst kv) d) e
      | _, _ => false
      end
  end.

Fixpoint py_lt (a b : json) {struct a} : option bool :=
  match as_float a, as_float b with
  | Some x, Some y => Some (number_lt x y)
  | _, _ =>
      match a, b with
      | JStr s, JStr t => Some (str_ltb s t)
      | JArr xs, JArr ys =>
          (fix lt_list (xs ys : list json) : option bool :=
             match xs, ys with
             | [], [] => Some false
             | [], _ :: _ => Some true
             | _ :: _, [] => Some false
             | x :: xs', y :: ys' =>
                 if elem_eq x y then lt_list xs' ys' else py_lt x y
             end) xs ys
      | _, _ => None
      end
  end.

(** ** The world outside the program *)

(** A page image produced by the rasterizer: which page of which document
    it shows (pages counted from 0, as PyMuPDF does). *)
Record image := Image { img_doc : path; img_page : nat }.

(** [convert_from_path(..., first_page=a, last_page=b)] numbers pages from
    1; [None] is the call without a range, which renders every page. *)
Definition page_range := option (nat * nat).

Record World := {
  (** the operating system *)
  os : platform;
  resolve : path -> str;                  (* Path.resolve, as text *)
  cache_writable : bool;                  (* can entries of CACHE_DIR be created *)
  can_unlink : path -> bool;              (* does Path.unlink succeed on the file *)
  (** hashlib, str, bytes, json and re *)
  md5_hexdigest : str -> str;
  fmt_mtime : Z -> str;                   (* how an f-string prints st_mtime *)
  decode_utf8_ignore : list Byte.byte -> str;
  isalpha : char -> bool;
  json_loads : str -> option dict;        (* None: json.loads raises *)
  findall_emails : str -> list str;       (* re.findall, matches left to right *)
  findall_phones : str -> list str;
  (** PyMuPDF: [None] when [fitz.open] raises; otherwise what [get_text]
      gives page by page, [None] where it raises *)
  fitz_open : path -> option (list (option str));
  (** pdf2image and Tesseract: [None] when the call raises *)
  convert_from_path : path -> page_range -> option (list image);
  image_to_string : image -> option str;
  (** python-docx: the paragraph texts, [None] when the parse raises *)
  docx_paragraphs : path -> option (list str);
  (** [ollama.chat(...)["message"]["content"]] for each of the three
      prompts, as a function of the data the prompt is built from; [None]
      when the call raises *)
  chat_cv : list str -> list str -> str -> option str;
  chat_job : str -> option str;
  chat_score : dict -> dict -> option str
}.

(** A file of the source directory: its modification time and its bytes
    ([None] when the file exists but cannot be read). *)
Record file := File { st_mtime : Z; content : option (list Byte.byte) }.

(** The mutable state: the files of the source directory in the order
    [glob] lists them, the entries of the cache directory by path (each
    entry held as the text whose UTF-8 encoding is on disk), and the
    module-level [latest_results]. *)
Record State := {
  files : list (path * file);
  cache : gmap (list N) (list N);
  latest_results : list dict
}.

Fixpoint lookup_file (p : path) (fs : list (path * file)) : option file :=
  match fs with
  | [] => None
  | (p', f) :: fs' => if str_eqb p' p then Some f else lookup_file p fs'
  end.

(** [Path.unlink] when it succeeds: the entry goes away. *)
Definition unlink (p : path) (fs : list (path * file)) : list (path * file) :=
  List.filter (fun e => negb (str_eqb (fst e) p)) fs.

Definition set_files (fs : list (path * file)) (st : State) : State :=
  {| files := fs; cache := cache st; latest_results := latest_results st |}.

Definition set_cache (c : gmap (list N) (list N)) (st : State) : State :=
  {| files := files st; cache := c; latest_results := latest_results st |}.

Definition set_latest (r : list dict) (st : State) : State :=
  {| files := files st; cache := cache st; latest_results := r |}.

(** A call either returns or raises. *)
Inductive exn := OSError | KeyError | TypeError | UnicodeEncodeError.

Inductive result (A : Type) :=
| Return (a : A)
| Raise (e : exn).
Arguments Return {A} a.
Arguments Raise {A} e.

(** ** Collecting and ranking *)

(** Take the [n]-th element out of a list. *)
Fixpoint pick {A : Type} (n : nat) (l : list A) : option (A * list A) :=
  match l with
  | [] => None
  | x :: l' =>
      match n with
      | 0 => Some (x, l')
      | S n' => match pick n' l' with
                | Some (y, r) => Some (y, x :: r)
                | None => None
                end
      end
  end.

(** [as_completed(futs)] yields every future once: those already finished
    when it is called in the iteration order of a set, the others as they
    finish.  The schedule [sched] says, at each step, which of the futures
    not yet yielded is yielded next (an index taken modulo their number),
    so every schedule is a possible run and every order is the order of
    some schedule. *)
Fixpoint completion_order {A : Type} (sched : nat -> nat) (step fuel : nat)
    (pending : list A) : list A :=
  match fuel with
  | 0 => []
  | S fuel' =>
      match pick (sched step mod length pending) pending with
      | Some (x, rest) => x :: completion_order sched (S step) fuel' rest
      | None => []
      end
  end.

Definition as_completed {A : Type} (sched : nat -> nat) (futs : list A) : list A :=
  completion_order sched 0 (length futs) futs.

(** The key function of the sort, [lambda x: x["score"]]. *)
Definition score_key (x : dict) : result json :=
  match dict_get (lit "score") x with
  | Some v => Return v
  | None => Raise KeyError
  end.

(** [list.sort] calls the key function on every element before it compares
    anything. *)
Fixpoint with_keys (results : list dict) : result (list (json * dict)) :=
  match results with
  | [] => Return []
  | x :: rest =>
      match score_key x with
      | Raise e => Raise e
      | Return k => match with_keys rest with
                    | Return l => Return ((k, x) :: l)
                    | Raise e => Raise e
                    end
      end
  end.

(** [list.sort(reverse=True)] as a stable insertion sort that uses [<]
    only: an element goes past the elements whose key is greater than its
    own and stops in front of the first that is not, so equal keys keep
    their order.  A comparison that raises ends the sort.

    Where [<] orders the keys (finite numbers, infinities, strings), every
    stable sort returns the same list, so this is the list [list.sort]
    returns.  A [NaN] key is less than nothing and nothing is less than it:
    the list comes back unsorted, and which permutation it is depends on
    the comparisons the sort happens to make, which are CPython's own.
    The properties below that speak of the order of the ranking are
    stated for finite scores. *)
Fixpoint insert_desc (x : json * dict) (sorted : list (json * dict))
    : result (list (json * dict)) :=
  match sorted with
  | [] => Return [x]
  | y :: rest =>
      match py_lt (fst x) (fst y) with
      | None => Raise TypeError
      | Some true => match insert_desc x rest with
                     | Return l => Return (y :: l)
                     | Raise e => Raise e
                     end
      | Some false => Return (x :: y :: rest)
      end
  end.

Fixpoint sort_desc (l : list (json * dict)) : result (list (json * dict)) :=
  match l with
  | [] => Return []
  | x :: rest =>
      match sort_desc rest with
      | Return sorted => insert_desc x sorted
      | Raise e => Raise e
      end
  end.

(** [results.sort(key=lambda x: x["score"], reverse=True)] *)
Definition sort_by_score (results : list dict) : result (list dict) :=
  match with_keys results with
  | Raise e => Raise e
  | Return keyed =>
      match sort_desc keyed with
      | Return sorted => Return (List.map snd sorted)
      | Raise e => Raise e
      end
  end.

(** The numeric score a result carries, if it carries one. *)
Definition score_of (r : dict) : option Q :=
  match dict_get (lit "score") r with
  | Some v => as_number v
  | None => None
  end.

(** [a] ranks at least as high as [b]. *)
Definition score_ge (a b : dict) : Prop :=
  exists x y, score_of a = Some x /\ score_of b = Some y /\ (y <= x)%Q.

(** The results whose score is [q]. *)
Definition same_score (q : Q) (r : dict) : bool :=
  match score_of r with
  | Some x => Qeq_bool x q
  | None => false
  end.

(** [[r for r in results if "error" not in r]] *)
Definition without_error (results : list dict) : list dict :=
  List.filter (fun r => negb (dict_has (lit "error") r)) results.

(** Whether a text holds a carriage return. *)
Definition has_cr (s : str) : bool := existsb (N.eqb ch_cr) s.

(** *** Keyed elements, as the sort handles them *)

(** The number a key stands for (0 for a key that is not a number). *)
Definition num (kx : json * dict) : Q :=
  match as_number (fst kx) with Some q => q | None => 0%Q end.

Definition numeric (kx : json * dict) : Prop := is_Some (as_number (fst kx)).

Definition kge (a b : json * dict) : Prop := (num b <= num a)%Q.

Definition keq (q : Q) (kx : json * dict) : bool := Qeq_bool (num kx) q.

(** The key of an element is the score of its record. *)
Definition keyed_ok (kx : json * dict) : Prop :=
  dict_get (lit "score") (snd kx) = Some (fst kx) /\ numeric kx.

(** ** The program *)

Definition CV_FOLDER : str := lit "cvs".
Definition CACHE_DIR : str := lit "cache".

(** What the program asks of the rasterizer and of the OCR engine, in the
    order it asks. *)
Inductive call :=
| Rasterize (p : path) (r : page_range)
| Ocr (img : image).

(** [min(l)] and [max(l)] of a non-empty list [x :: l]. *)
Definition list_min (x : nat) (l : list nat) : nat := fold_left Nat.min l x.
Definition list_max (x : nat) (l : list nat) : nat := fold_left Nat.max l x.

(** [t and t.strip()] *)
Definition has_text (t : str) : bool := str_truthy t && str_truthy (strip t).

(** The page loop of [extract_text_pdf]: [i] is the index of the next page;
    the flag is [false] when [get_text] raised, with the two lists as they
    stood at that point. *)
Fixpoint scan_pages (pages : list (option str)) (i : nat)
    (text_parts : list str) (pages_without_text : list nat)
    : bool * (list str * list nat) :=
  match pages with
  | [] => (true, (text_parts, pages_without_text))
  | None :: _ => (false, (text_parts, pages_without_text))
  | Some t :: rest =>
      if has_text t
      then scan_pages rest (S i) (text_parts ++ [t]) pages_without_text
      else scan_pages rest (S i) text_parts (pages_without_text ++ [i])
  end.

(** The pages whose text layer holds nothing but whitespace, by index,
    counted from [i]. *)
Fixpoint blank_pages_from (i : nat) (texts : list str) : list nat :=
  match texts with
  | [] => []
  | t :: rest => if has_text t then blank_pages_from (S i) rest
                 else i :: blank_pages_from (S i) rest
  end.

Definition blank_pages (texts : list str) : list nat := blank_pages_from 0 texts.

Section Program.

Variable w : World.

(** [_cache_path]: [p.stat()] raises when the file is not there. *)
Definition _cache_path (st : State) (p : path) : result path :=
  match lookup_file p (files st) with
  | Some f =>
      let key := resolve w p ++ lit ":" ++ fmt_mtime w (st_mtime f) in
      let h := md5_hexdigest w key in
      Return (path_join CACHE_DIR (h ++ lit ".txt"))
  | None => Raise OSError
  end.

(** The OCR loop of the main path: each page inside its own [try]. *)
Fixpoint ocr_each_guarded (images : list image) (acc : list str * list call)
    : list str * list call :=
  match images with
  | [] => acc
  | img :: rest =>
      let calls := snd acc ++ [Ocr img] in
      match image_to_string w img with
      | Some t => ocr_each_guarded rest (fst acc ++ [t], calls)
      | None => ocr_each_guarded rest (fst acc, calls)
      end
  end.

(** The OCR loop of the fallback path: no [try] inside the loop, the first
    page on which Tesseract raises ends it. *)
Fixpoint ocr_each (images : list image) (acc : list str * list call)
    : list str * list call :=
  match images with
  | [] => acc
  | img :: rest =>
      let calls := snd acc ++ [Ocr img] in
      match image_to_string w img with
      | Some t => ocr_each rest (fst acc ++ [t], calls)
      | None => (fst acc, calls)
      end
  end.

(** The body of the outer [try] of [extract_text_pdf]: the flag is [false]
    when it raised. *)
Definition pdf_try (pdf_path : path) : bool * (list str * list call) :=
  match fitz_open w pdf_path with
  | None => (false, ([], []))
  | Some doc =>
      match scan_pages doc 0 [] [] with
      | (false, (text_parts, _)) => (false, (text_parts, []))
      | (true, (text_parts, [])) => (true, (text_parts, []))
      | (true, (text_parts, i :: more)) =>
          let r := Some (list_min i more + 1, list_max i more + 1) in
          let calls := [Rasterize pdf_path r] in
          match convert_from_path w pdf_path r with
          | Some images => (true, ocr_each_guarded images (text_parts, calls))
          | None => (false, (text_parts, calls))
          end
      end
  end.

(** The [except] branch of [extract_text_pdf]. *)
Definition pdf_except (pdf_path : path) (acc : list str * list call)
    : list str * list call :=
  let calls := snd acc ++ [Rasterize pdf_path None] in
  match convert_from_path w pdf_path None with
  | Some images => ocr_each images (fst acc, calls)
  | None => (fst acc, calls)
  end.

(** [text_parts] at the end of [extract_text_pdf], with the calls made. *)
Definition pdf_run (pdf_path : path) : list str * list call :=
  match pdf_try pdf_path with
  | (true, acc) => acc
  | (false, acc) => pdf_except pdf_path acc
  end.

Definition pdf_text_parts (pdf_path : path) : list str := fst (pdf_run pdf_path).
Definition pdf_calls (pdf_path : path) : list call := snd (pdf_run pdf_path).

Definition extract_text_pdf (pdf_path : path) : str :=
  strip (join [ch_nl] (pdf_text_parts pdf_path)).

Definition extract_text_docx (p : path) : str :=
  match docx_paragraphs w p with
  | Some paragraphs => strip (join [ch_nl] paragraphs)
  | None => []
  end.

(** The bytes [read_text] gets, or the [OSError] it raises. *)
Definition read_bytes (st : State) (p : path) : result (list Byte.byte) :=
  match lookup_file p (files st) with
  | Some f => match content f with
              | Some b => Return b
              | None => Raise OSError
              end
  | None => Raise OSError
  end.

Definition decode_latin1 (b : list Byte.byte) : str := List.map Byte.to_N b.

(** [extract_text_plain]: [errors="ignore"] makes both decodings total, so
    the [except] branch is entered when the read itself raises. *)
Definition extract_text_plain (st : State) (p : path) : result str :=
  match read_bytes st p with
  | Return b => Return (universal_newlines (decode_utf8_ignore w b))
  | Raise _ =>
      match read_bytes st p with
      | Return b => Return (universal_newlines (decode_latin1 b))
      | Raise e => Raise e
      end
  end.

(** [cp.write_text(text, encoding="utf-8")] inside [try/except]: nothing
    happens when the entry cannot be created; a text that cannot be encoded
    leaves the entry created and empty. *)
Definition cache_write (cp : path) (text : str) (st : State) : State :=
  if cache_writable w then
    if encodable text
    then set_cache (<[cp := write_newlines (os w) text]> (cache st)) st
    else set_cache (<[cp := []]> (cache st)) st
  else st.

Definition extract_text (st : State) (file_path : path) : result (str * State) :=
  match _cache_path st file_path with
  | Raise e => Raise e
  | Return cp =>
      match cache st !! cp with
      | Some entry => Return (universal_newlines entry, st)
      | None =>
          let ext := lower (suffix file_path) in
          let extracted :=
            if str_eqb ext (lit ".pdf") then Return (extract_text_pdf file_path)
            else if str_eqb ext (lit ".docx") then Return (extract_text_docx file_path)
            else if str_eqb ext (lit ".txt") then extract_text_plain st file_path
            else Return [] in
          match extracted with
          | Raise e => Raise e
          | Return text => Return (text, cache_write cp text st)
          end
      end
  end.

(** [extract_contacts]: the two hint lists. *)
Record contacts := Contacts { emails : list str; phones : list str }.

Definition extract_contacts (cv_text : str) : contacts :=
  {| emails := findall_emails w cv_text; phones := findall_phones w cv_text |}.

(** [word.isalpha()] *)
Definition word_isalpha (word : str) : bool :=
  str_truthy word && forallb (isalpha w) word.

(** [extract_name]: the first line of two or three alphabetic words. *)
Fixpoint name_of_lines (lines : list str) : str * str :=
  match lines with
  | [] => ([], [])
  | line :: rest =>
      let words := split_ws (strip line) in
      if (2 <=? length words) && (length words <=? 3) && forallb word_isalpha words
      then (hd [] words, join (lit " ") (tl words))
      else name_of_lines rest
  end.

Definition extract_name (cv_text : str) : str * str :=
  name_of_lines (splitlines cv_text).

(** The span from the first opening brace to the last closing brace of a
    reply, when [s != -1 and e != -1 and e > s]. *)
Definition json_span (txt : str) : option str :=
  match find_char 123%N txt, rfind_char 125%N txt with
  | Some s, Some e => if s <? e then Some (slice s (e + 1) txt) else None
  | _, _ => None
  end.

(** [x[0] if x else ""] *)
Definition first_or_empty (l : list str) : json :=
  match l with
  | x :: _ => JStr x
  | [] => JStr []
  end.

(** [if not data.get(k) and hints: data[k] = hints[0]] *)
Definition fill_from_hints (k : str) (hints : list str) (data : dict) : dict :=
  match hints with
  | h :: _ => if get_falsy k data then dict_set k (JStr h) data else data
  | [] => data
  end.

(** [if not data.get(k): data[k] = v] *)
Definition fill_default (k : str) (v : str) (data : dict) : dict :=
  if get_falsy k data then dict_set k (JStr v) data else data.

Definition parse_cv (cv_text : str) : dict :=
  let contacts := extract_contacts cv_text in
  let '(first_name, last_name) := extract_name cv_text in
  let hint_only : dict :=
    [ (lit "first_name", JStr first_name); (lit "last_name", JStr last_name);
      (lit "email", first_or_empty (emails contacts));
      (lit "phone", first_or_empty (phones contacts));
      (lit "skills", JArr []); (lit "years_experience", JNum 0);
      (lit "companies", JArr []); (lit "languages", JArr []);
      (lit "certifications", JArr []); (lit "education", JArr []) ] in
  match chat_cv w (emails contacts) (phones contacts) (firstn (8 * 1000) cv_text) with
  | None => hint_only
  | Some txt =>
      match json_span txt with
      | None => hint_only
      | Some span =>
          match json_loads w span with
          | None => hint_only
          | Some data =>
              let data := fill_default (lit "first_name") first_name data in
              let data := fill_default (lit "last_name") last_name data in
              let data := fill_from_hints (lit "email") (emails contacts) data in
              let data := fill_from_hints (lit "phone") (phones contacts) data in
              data
          end
      end
  end.

Definition parse_job (job_text : str) : dict :=
  let empty_job : dict :=
    [ (lit "skills_required", JArr []); (lit "years_required", JNum 0);
      (lit "languages_required", JArr []);
      (lit "certifications_required", JArr []) ] in
  match chat_job w (firstn (4 * 1000) job_text) with
  | None => empty_job
  | Some txt =>
      match json_span txt with
      | None => empty_job
      | Some span =>
          match json_loads w span with
          | None => empty_job
          | Some data => data
          end
      end
  end.

Definition zero_score : dict :=
  [ (lit "score", JNum 0); (lit "matching_points", JArr []) ].

Definition score_candidate (cv_json job_json : dict) : dict :=
  match chat_score w cv_json job_json with
  | None => zero_score
  | Some txt =>
      match json_span txt with
      | None => zero_score
      | Some span =>
          match json_loads w span with
          | None => zero_score
          | Some data => data
          end
      end
  end.

Definition empty_text_record : dict := [ (lit "error", JStr (lit "Empty text")) ].

(** [try: file_path.unlink() except: pass]: the file stays when the
    removal raises. *)
Definition try_unlink (p : path) (st : State) : State :=
  if can_unlink w p then set_files (unlink p (files st)) st else st.

(** [process_one]: the result, or the exception [extract_text] let through,
    and the state it leaves. *)
Definition process_one (st : State) (file_path : path) (job_json : dict)
    : result dict * State :=
  match extract_text st file_path with
  | Raise e => (Raise e, st)
  | Return (text, st1) =>
      if negb (str_truthy (strip text)) then (Return empty_text_record, st1)
      else
        let cv_data := parse_cv text in
        let score_data := score_candidate cv_data job_json in
        let st2 := try_unlink file_path st1 in
        (Return (dict_merge cv_data score_data), st2)
  end.

(** The files [index] hands to the pool: the entries of the source
    directory that [glob] matches with [*] (names that do not start with a
    dot) and whose lower-cased suffix is one of the three known ones. *)
Definition recognised (p : path) : bool :=
  let ext := lower (suffix p) in
  str_eqb ext (lit ".pdf") || str_eqb ext (lit ".docx") || str_eqb ext (lit ".txt").

Definition glob_visible (p : path) : bool :=
  match path_name p with
  | c :: _ => negb (c =? ch_dot)%N
  | [] => false
  end.

Definition discovered (st : State) : list path :=
  List.filter (fun p => glob_visible p && recognised p) (List.map fst (files st)).

(** The loop over [as_completed(futs)]: each task is run as one step, in
    the order [as_completed] yields the futures; a task touches only its
    own document and its own cache entry.  A result is appended, an
    exception is printed and dropped. *)
Fixpoint collect (st : State) (completed : list path) (job_json : dict)
    (results : list dict) : list dict * State :=
  match completed with
  | [] => (results, st)
  | f :: rest =>
      match process_one st f job_json with
      | (Return r, st') => collect st' rest job_json (results ++ [r])
      | (Raise _, st') => collect st' rest job_json results
      end
  end.

(** [index] on a POST, from the call of [parse_job] on (the uploaded files
    are already saved in the source directory).  [sched] is the order in
    which [as_completed] yields the futures.  When the sort raises, the request
    fails and [latest_results] keeps its old value. *)
Definition index (st : State) (job_desc_text : str) (sched : nat -> nat)
    : result (list dict) * State :=
  let job_json := parse_job job_desc_text in
  let files := discovered st in
  let '(results, st1) := collect st (as_completed sched files) job_json [] in
  let results := without_error results in
  match sort_by_score results with
  | Return results => (Return results, set_latest results st1)
  | Raise e => (Raise e, st1)
  end.

(** [results] as [index] has it after the filter and before the sort: the
    records the tasks handed back, in completion order, those with an
    ["error"] key left out. *)
Definition collected_results (st : State) (job_desc_text : str) (sched : nat -> nat)
    : list dict :=
  without_error
    (fst (collect st (as_completed sched (discovered st)) (parse_job job_desc_text) [])).


End Program.

(** ** The export *)

(** One row of the CSV file: the five fields as [DictWriter] receives them
    and the joined matching points. *)
Record row := Row {
  row_first_name : json; row_last_name : json; row_email : json;
  row_phone : json; row_score : json; row_matching_points : str
}.

Definition get_default (k : str) (default : json) (r : dict) : json :=
  match dict_get k r with Some v => v | None => default end.

(** The items [str.join] iterates over: the elements of a list, the
    characters of a string, the keys of a dictionary; every item has to be
    a string. *)
Fixpoint all_strings (l : list json) : result (list str) :=
  match l with
  | [] => Return []
  | JStr s :: l' => match all_strings l' with
                    | Return r => Return (s :: r)
                    | Raise e => Raise e
                    end
  | _ :: _ => Raise TypeError
  end.

Definition join_items (v : json) : result (list str) :=
  match v with
  | JArr l => all_strings l
  | JStr s => Return (List.map (fun c => [c]) s)
  | JObj d => Return (List.map fst d)
  | _ => Raise TypeError
  end.

(** What [writerow] writes for a field is [str(value)]: the string itself
    for a string, ASCII text for a number, a boolean or [None], and the
    [repr] of a list or of a dictionary, in which a surrogate is escaped.
    The file is opened as UTF-8, so a string field with a lone surrogate
    makes the write raise. *)
Definition field_encodable (v : json) : bool :=
  match v with
  | JStr s => encodable s
  | _ => true
  end.

Definition row_encodable (x : row) : bool :=
  field_encodable (row_first_name x) && field_encodable (row_last_name x)
  && field_encodable (row_email x) && field_encodable (row_phone x)
  && field_encodable (row_score x) && encodable (row_matching_points x).

(** One turn of the loop of [download_csv]: the row is built (the join may
    raise), then written (the encoding may raise). *)
Definition export_row (r : dict) : result row :=
  match join_items (get_default (lit "matching_points") (JArr []) r) with
  | Raise e => Raise e
  | Return items =>
      let x := {| row_first_name := get_default (lit "first_name") (JStr []) r;
                  row_last_name := get_default (lit "last_name") (JStr []) r;
                  row_email := get_default (lit "email") (JStr []) r;
                  row_phone := get_default (lit "phone") (JStr []) r;
                  row_score := get_default (lit "score") (JNum 0) r;
                  row_matching_points := join (lit "; ") items |} in
      if row_encodable x then Return x else Raise UnicodeEncodeError
  end.

Fixpoint export_rows (rs : list dict) : result (list row) :=
  match rs with
  | [] => Return []
  | r :: rs' =>
      match export_row r with
      | Raise e => Raise e
      | Return x => match export_rows rs' with
                    | Return xs => Return (x :: xs)
                    | Raise e => Raise e
                    end
      end
  end.

(** [download_csv]: [None] is the 400 answer given when there is nothing to
    export; otherwise the rows written after the header. *)
Definition download_csv (st : State) : option (result (list row)) :=
  match latest_results st with
  | [] => None
  | rs => Some (export_rows rs)
  end.

(** * Sample worlds

    Small worlds on which the program can be run.  The stand-ins for the
    digest, for the decoder and for [str.isalpha] agree with the real
    functions on the ASCII inputs used here. *)

Definition quoted (s : string) : str := [34%N] ++ lit s ++ [34%N].

Definition ascii_bytes (s : string) : list Byte.byte := list_byte_of_string s.

Definition ascii_decode (b : list Byte.byte) : str :=
  List.filter (fun c => (c <? 128)%N) (List.map Byte.to_N b).

Definition ascii_isalpha (c : char) : bool :=
  ((65 <=? c) && (c <=? 90) || (97 <=? c) && (c <=? 122))%N.

(** A table in place of a function: the value stored for the key. *)
Fixpoint table_get {V : Type} (k : str) (t : list (str * V)) : option V :=
  match t with
  | [] => None
  | (k', v) :: t' => if str_eqb k' k then Some v else table_get k t'
  end.

(** The rasterizer at work on a document of [n] pages: the images of the
    pages asked for. *)
Definition rasterizer (n : nat) (p : path) (r : page_range) : option (list image) :=
  match r with
  | None => Some (List.map (Image p) (seq 0 n))
  | Some (a, b) => Some (List.map (Image p) (seq (a - 1) (b + 1 - a)))
  end.

(** A world where no document parses, nothing is rasterized and the judge
    is down. *)
Definition quiet_world : World := {|
  os := Posix;
  resolve := fun p => lit "/srv/app/" ++ p;
  cache_writable := true;
  can_unlink := fun _ => true;
  md5_hexdigest := fun key => key;
  fmt_mtime := fun t => [Z.to_N t];
  decode_utf8_ignore := ascii_decode;
  isalpha := ascii_isalpha;
  json_loads := fun _ => None;
  findall_emails := fun _ => [];
  findall_phones := fun _ => [];
  fitz_open := fun _ => None;
  convert_from_path := fun _ _ => None;
  image_to_string := fun _ => None;
  docx_paragraphs := fun _ => None;
  chat_cv := fun _ _ _ => None;
  chat_job := fun _ => None;
  chat_score := fun _ _ => None
|}.

Definition with_documents
    (pdf : path -> option (list (option str)))
    (raster : path -> page_range -> option (list image))
    (ocr : image -> option str)
    (docx : path -> option (list str)) (w : World) : World := {|
  os := os w; resolve := resolve w; cache_writable := cache_writable w;
  can_unlink := can_unlink w;
  md5_hexdigest := md5_hexdigest w; fmt_mtime := fmt_mtime w;
  decode_utf8_ignore := decode_utf8_ignore w; isalpha := isalpha w;
  json_loads := json_loads w;
  findall_emails := findall_emails w; findall_phones := findall_phones w;
  fitz_open := pdf; convert_from_path := raster; image_to_string := ocr;
  docx_paragraphs := docx;
  chat_cv := chat_cv w; chat_job := chat_job w; chat_score := chat_score w
|}.

(** A judge that answers each CV text from one table and scores each
    candidate record from another, by first name; [loads] is what
    [json.loads] makes of the replies. *)
Definition with_judge
    (loads : list (str * dict)) (mails : list (str * list str))
    (cv_replies : list (str * str)) (score_replies : list (str * str))
    (w : World) : World := {|
  os := os w; resolve := resolve w; cache_writable := cache_writable w;
  can_unlink := can_unlink w;
  md5_hexdigest := md5_hexdigest w; fmt_mtime := fmt_mtime w;
  decode_utf8_ignore := decode_utf8_ignore w; isalpha := isalpha w;
  json_loads := fun span => table_get span loads;
  findall_emails := fun text => match table_get text mails with
                                | Some l => l
                                | None => []
                                end;
  findall_phones := findall_phones w;
  fitz_open := fitz_open w; convert_from_path := convert_from_path w;
  image_to_string := image_to_string w; docx_paragraphs := docx_paragraphs w;
  chat_cv := fun _ _ text => table_get text cv_replies;
  chat_job := chat_job w;
  chat_score := fun cv_json _ =>
    match dict_get (lit "first_name") cv_json with
    | Some (JStr name) => table_get name score_replies
    | _ => None
    end
|}.

Definition source_dir (entries : list (path * file)) : State :=
  {| files := entries; cache := ∅; latest_results := [] |}.

(** *** A scanned PDF: pages 0 and 3 have no text layer *)

Definition scan_pdf : path := lit "cvs/scan.pdf".
Definition scan_texts : list str := [ []; lit "alpha"; lit "beta"; lit " " ].

Definition page_label (img : image) : str :=
  lit "scan of page " ++ [(48 + N.of_nat (img_page img))%N].

Definition scan_world : World :=
  with_documents (fun _ => Some (List.map Some scan_texts)) (rasterizer 4)
    (fun img => Some (page_label img)) (fun _ => None) quiet_world.

(** *** A PDF that does not open, and a page Tesseract cannot read *)

Definition broken_pdf : path := lit "cvs/broken.pdf".

Definition broken_world : World :=
  with_documents (fun _ => None) (rasterizer 3)
    (fun img => if img_page img =? 1 then None else Some (page_label img))
    (fun _ => None) quiet_world.

(** The same unreadable page in a document that opens. *)
Definition smudged_world : World :=
  with_documents (fun _ => Some [Some []; Some []; Some []]) (rasterizer 3)
    (fun img => if img_page img =? 1 then None else Some (page_label img))
    (fun _ => None) quiet_world.

(** *** Text files and a judge *)

Definition ada_txt : path := lit "cvs/ada.txt".
Definition bob_txt : path := lit "cvs/bob.txt".
Definition blank_txt : path := lit "cvs/blank.txt".

Definition ada_text : str := lit "Ada Lovelace".

Definition ada_file : file := File 100 (Some (ascii_bytes "Ada Lovelace")).
Definition bob_file : file := File 200 (Some (ascii_bytes "Bob Stone")).
Definition blank_file : file := File 300 (Some (ascii_bytes "   ")).

Definition reply_score_90 : str := lit "{" ++ quoted "score" ++ lit ": 90}".
Definition reply_score_70 : str := lit "{" ++ quoted "score" ++ lit ": 70}".
Definition reply_no_score : str := lit "{" ++ quoted "matching_points" ++ lit ": []}".
Definition reply_error : str :=
  lit "{" ++ quoted "error" ++ lit ": " ++ quoted "not a CV" ++ lit "}".
Definition reply_email : str :=
  lit "Here you go: {" ++ quoted "email" ++ lit ": " ++ quoted "ada@judge.org"
  ++ lit "} Hope this helps.".
Definition reply_email_span : str :=
  lit "{" ++ quoted "email" ++ lit ": " ++ quoted "ada@judge.org" ++ lit "}".
Definition reply_name_only : str :=
  lit "{" ++ quoted "first_name" ++ lit ": " ++ quoted "Ada" ++ lit "}".

Definition sample_loads : list (str * dict) :=
  [ (reply_score_90, [(lit "score", JNum 90)]);
    (reply_score_70, [(lit "score", JNum 70)]);
    (reply_no_score, [(lit "matching_points", JArr [])]);
    (reply_error, [(lit "error", JStr (lit "not a CV"))]);
    (reply_email_span, [(lit "email", JStr (lit "ada@judge.org"))]);
    (reply_name_only, [(lit "first_name", JStr (lit "Ada"))]) ].

(** Both candidates get the same score. *)
Definition tie_world : World :=
  with_judge sample_loads [] []
    [ (lit "Ada", reply_score_90); (lit "Bob", reply_score_90) ] quiet_world.


(** The judge scores Ada with an object that has no score. *)
Definition no_score_world : World :=
  with_judge sample_loads [] [] [ (lit "Ada", reply_no_score) ] quiet_world.


(** The text holds one email and the judge returns another; in the second
    world the judge's record has no email. *)
Definition email_text : str := lit "Ada Lovelace ada@hint.org".

Definition judge_email_world : World :=
  with_judge sample_loads [ (email_text, [lit "ada@hint.org"]) ]
    [ (email_text, reply_email) ] [] quiet_world.

Definition hint_email_world : World :=
  with_judge sample_loads [ (email_text, [lit "ada@hint.org"]) ]
    [ (email_text, reply_name_only) ] [] quiet_world.

(** The future of the task discovered last is yielded first. *)
Definition last_first (step : nat) : nat := 1.
Definition in_order (step : nat) : nat := 0.

(** *** A document whose text holds a carriage return *)

Definition cr_docx : path := lit "cvs/cr.docx".
Definition cr_text : str := lit "Ada" ++ [ch_cr] ++ lit "Lovelace".

Definition cr_world : World :=
  with_documents (fun _ => None) (fun _ _ => None) (fun _ => None)
    (fun _ => Some [cr_text]) quiet_world.

(** *** Source directories and records of the samples *)

Definition two_cvs : State := source_dir [ (ada_txt, ada_file); (bob_txt, bob_file) ].
Definition ada_only : State := source_dir [ (ada_txt, ada_file) ].
Definition blank_only : State := source_dir [ (blank_txt, blank_file) ].
Definition cr_only : State := source_dir [ (cr_docx, File 400 None) ].

(** The record of a candidate the judge says nothing about, with a score. *)
Definition candidate (first last : string) (score_data : dict) : dict :=
  dict_merge
    [ (lit "first_name", JStr (lit first)); (lit "last_name", JStr (lit last));
      (lit "email", JStr []); (lit "phone", JStr []);
      (lit "skills", JArr []); (lit "years_experience", JNum 0);
      (lit "companies", JArr []); (lit "languages", JArr []);
      (lit "certifications", JArr []); (lit "education", JArr []) ]
    score_data.

Definition ada_90 : dict := candidate "Ada" "Lovelace" [(lit "score", JNum 90)].
Definition bob_90 : dict := candidate "Bob" "Stone" [(lit "score", JNum 90)].
Definition ada_0 : dict := candidate "Ada" "Lovelace" zero_score.


(** Whether a record carries a numeric score. *)
Definition scored (r : dict) : bool :=
  match score_of r with Some _ => true | None => false end.

(** *** Further samples *)

(** The test [extract_name] applies to a line: two or three words, all
    alphabetic. *)
Definition name_line (w : World) (line : str) : bool :=
  let words := split_ws (strip line) in
  (2 <=? length words) && (length words <=? 3) && forallb (word_isalpha w) words.

(** The scanned PDF with a rasterizer that raises when asked for a range
    and works when asked for the whole document. *)
Definition flaky_world : World :=
  with_documents (fun _ => Some (List.map Some scan_texts))
    (fun p r => match r with Some _ => None | None => rasterizer 4 p None end)
    (fun img => Some (page_label img)) (fun _ => None) quiet_world.

(** A PDF that opens and whose second page makes [get_text] raise. *)
Definition torn_pdf : path := lit "cvs/torn.pdf".

Definition torn_world : World :=
  with_documents (fun _ => Some [Some (lit "alpha"); None; Some (lit "gamma")])
    (rasterizer 3) (fun img => Some (page_label img)) (fun _ => None) quiet_world.

(** A source directory that also holds a file the program does not
    recognise and a hidden file, beside a cache that already has an entry. *)
Definition notes_md : path := lit "cvs/notes.md".
Definition hidden_txt : path := lit "cvs/.draft.txt".
Definition old_entry : path := lit "cache/old.txt".

Definition mixed_dir : State := {|
  files := [ (ada_txt, ada_file);
             (notes_md, File 500 (Some (ascii_bytes "notes")));
             (hidden_txt, File 600 (Some (ascii_bytes "Eve Doe"))) ];
  cache := {[ old_entry := lit "an older text" ]};
  latest_results := [ada_0]
|}.

(** Results whose matching points are [null], ready for export. *)
Definition null_points : dict :=
  [ (lit "first_name", JStr (lit "Ada")); (lit "score", JNum 50);
    (lit "matching_points", JNull) ].




(** A row carries the five fields of its record, with the defaults of
    [download_csv] where the record has no such key. *)
Definition row_of (r : dict) (x : row) : Prop :=
  row_first_name x = get_default (lit "first_name") (JStr []) r
  /\ row_last_name x = get_default (lit "last_name") (JStr []) r
  /\ row_email x = get_default (lit "email") (JStr []) r
  /\ row_phone x = get_default (lit "phone") (JStr []) r
  /\ row_score x = get_default (lit "score") (JNum 0) r.

(** A PDF of five pages whose pages 1 and 2 are blank, with a rasterizer
    that raises when asked for a range and works when asked for the whole
    document. *)
Definition narrow_pdf : path := lit "cvs/narrow.pdf".
Definition narrow_texts : list str := [ lit "a"; []; []; lit "d"; lit "e" ].

Definition narrow_world : World :=
  with_documents (fun _ => Some (List.map Some narrow_texts))
    (fun p r => match r with Some _ => None | None => rasterizer 5 p None end)
    (fun img => Some (page_label img)) (fun _ => None) quiet_world.

(** A PDF whose text layer, as [get_text] returns it, holds a lone
    surrogate. *)
Definition surrogate_pdf : path := lit "cvs/glyphs.pdf".
Definition surrogate_text : str := lit "Ada" ++ [55357%N].

Definition surrogate_world : World :=
  with_documents (fun _ => Some [Some surrogate_text]) (fun _ _ => None)
    (fun _ => None) (fun _ => None) quiet_world.

Definition surrogate_only : State := source_dir [ (surrogate_pdf, File 700 None) ].



(** * Properties *)

(** ** Strings and dictionaries *)

Lemma str_eqb_eq (a b : str) : str_eqb a b = true <-> a = b.
Proof. unfold str_eqb. apply bool_decide_eq_true. Qed.

Lemma str_eqb_refl (a : str) : str_eqb a a = true.
Proof. now apply str_eqb_eq. Qed.

Lemma str_eqb_neq (a b : str) : str_eqb a b = false <-> a <> b.
Proof. unfold str_eqb. apply bool_decide_eq_false. Qed.

Lemma dict_get_set_same (k : str) (v : json) (d : dict) :
  dict_get k (dict_set k v d) = Some v.
Proof.
  induction d as [|[k' v'] d IH]; simpl.
  - now rewrite str_eqb_refl.
  - destruct (str_eqb k' k) eqn:E; simpl.
    + now rewrite str_eqb_refl.
    + now rewrite E.
Qed.

Lemma dict_get_set_other (k k' : str) (v : json) (d : dict) :
  k <> k' -> dict_get k' (dict_set k v d) = dict_get k' d.
Proof.
  intros Hne. induction d as [|[k0 v0] d IH]; simpl.
  - apply str_eqb_neq in Hne. now rewrite Hne.
  - destruct (str_eqb k0 k) eqn:E; simpl.
    + apply str_eqb_eq in E. subst k0.
      apply str_eqb_neq in Hne. now rewrite Hne.
    + now rewrite IH.
Qed.

Lemma dict_get_set (k k' : str) (v : json) (d : dict) :
  dict_get k' (dict_set k v d) = if str_eqb k k' then Some v else dict_get k' d.
Proof.
  destruct (str_eqb k k') eqn:E.
  - apply str_eqb_eq in E. subst. apply dict_get_set_same.
  - apply str_eqb_neq in E. now apply dict_get_set_other.
Qed.

(** In [{**a, **b}] a key of [b] has the value [b] gives it, any other key
    the value [a] gives it. *)
Lemma dict_get_merge (k : str) (a b : dict) :
  dict_get k (dict_merge a b) =
  match dict_get k (rev b) with Some v => Some v | None => dict_get k a end.
Proof.
  unfold dict_merge. revert a.
  induction b as [|[k0 v0] b IH]; intros a; simpl; [reflexivity|].
  rewrite IH. clear IH.
  assert (Happ : forall x y, dict_get k (x ++ y) =
            match dict_get k x with Some v => Some v | None => dict_get k y end).
  { induction x as [|[k1 v1] x IHx]; intros y; simpl; [reflexivity|].
    destruct (str_eqb k1 k); [reflexivity|apply IHx]. }
  rewrite Happ. destruct (dict_get k (rev b)) as [v|]; [reflexivity|].
  simpl. rewrite dict_get_set. destruct (str_eqb k0 k); reflexivity.
Qed.


Lemma get_falsy_fill_default (k k' v : str) (d : dict) :
  k <> k' -> dict_get k' (fill_default k v d) = dict_get k' d.
Proof.
  intros Hne. unfold fill_default.
  destruct (get_falsy k d); [now apply dict_get_set_other|reflexivity].
Qed.

Lemma dict_get_fill_from_hints_other (k k' : str) (hints : list str) (d : dict) :
  k <> k' -> dict_get k' (fill_from_hints k hints d) = dict_get k' d.
Proof.
  intros Hne. unfold fill_from_hints.
  destruct hints; [reflexivity|].
  destruct (get_falsy k d); [now apply dict_get_set_other|reflexivity].
Qed.

(** A value the reply states is kept; a missing or empty one is filled
    from the first hint. *)
Lemma dict_get_fill_from_hints (k : str) (hints : list str) (d : dict) :
  dict_get k (fill_from_hints k hints d) =
  match hints with
  | h :: _ => if get_falsy k d then Some (JStr h) else dict_get k d
  | [] => dict_get k d
  end.
Proof.
  unfold fill_from_hints. destruct hints; [reflexivity|].
  destruct (get_falsy k d); [apply dict_get_set_same|reflexivity].
Qed.

(** ** The candidate record: hints are defaults *)

(** What [parse_cv] returns when the judge answered with a JSON object. *)
Lemma parse_cv_parsed (w : World) (cv_text txt span : str) (data : dict) :
  chat_cv w (emails (extract_contacts w cv_text)) (phones (extract_contacts w cv_text))
    (firstn (8 * 1000) cv_text) = Some txt ->
  json_span txt = Some span ->
  json_loads w span = Some data ->
  parse_cv w cv_text =
    fill_from_hints (lit "phone") (phones (extract_contacts w cv_text))
      (fill_from_hints (lit "email") (emails (extract_contacts w cv_text))
         (fill_default (lit "last_name") (snd (extract_name w cv_text))
            (fill_default (lit "first_name") (fst (extract_name w cv_text)) data))).
Proof.
  intros Hchat Hspan Hloads. unfold parse_cv.
  destruct (extract_name w cv_text) as [first_name last_name].
  rewrite Hchat, Hspan, Hloads. reflexivity.
Qed.

Lemma key_email_phone : lit "email" <> lit "phone".
Proof. discriminate. Qed.
Lemma key_first_email : lit "first_name" <> lit "email".
Proof. discriminate. Qed.
Lemma key_last_email : lit "last_name" <> lit "email".
Proof. discriminate. Qed.
Lemma key_first_phone : lit "first_name" <> lit "phone".
Proof. discriminate. Qed.
Lemma key_last_phone : lit "last_name" <> lit "phone".
Proof. discriminate. Qed.

Lemma get_falsy_fill_names (k first last : str) (data : dict) :
  lit "first_name" <> k -> lit "last_name" <> k ->
  dict_get k (fill_default (lit "last_name") last
                (fill_default (lit "first_name") first data)) = dict_get k data.
Proof.
  intros H1 H2. now rewrite !get_falsy_fill_default.
Qed.

(** C9. When the judge's reply parses to a record [data]: an email the
    record states (any value Python takes as true, such as a non-empty
    string) is the email of the result, whatever the hints are; when the
    record has no email field and the text holds at least one email, the
    first email found in the text is the result's email.  The same holds
    of the phone. *)
Theorem parse_cv_hints_are_defaults (w : World) (cv_text txt span : str) (data : dict) :
  chat_cv w (emails (extract_contacts w cv_text)) (phones (extract_contacts w cv_text))
    (firstn (8 * 1000) cv_text) = Some txt ->
  json_span txt = Some span ->
  json_loads w span = Some data ->
  (forall v, dict_get (lit "email") data = Some v -> truthy v = true ->
     dict_get (lit "email") (parse_cv w cv_text) = Some v)
  /\ (forall h rest, dict_get (lit "email") data = None ->
        emails (extract_contacts w cv_text) = h :: rest ->
        dict_get (lit "email") (parse_cv w cv_text) = Some (JStr h))
  /\ (forall v, dict_get (lit "phone") data = Some v -> truthy v = true ->
        dict_get (lit "phone") (parse_cv w cv_text) = Some v)
  /\ (forall h rest, dict_get (lit "phone") data = None ->
        phones (extract_contacts w cv_text) = h :: rest ->
        dict_get (lit "phone") (parse_cv w cv_text) = Some (JStr h)).
Proof.
  intros Hchat Hspan Hloads.
  rewrite (parse_cv_parsed w cv_text txt span data Hchat Hspan Hloads).
  set (named := fill_default (lit "last_name") _ _).
  assert (Hemail : dict_get (lit "email") named = dict_get (lit "email") data).
  { apply get_falsy_fill_names; [apply key_first_email|apply key_last_email]. }
  assert (Hphone : dict_get (lit "phone") named = dict_get (lit "phone") data).
  { apply get_falsy_fill_names; [apply key_first_phone|apply key_last_phone]. }
  repeat split.
  - intros v Hv Ht.
    rewrite dict_get_fill_from_hints_other by (apply not_eq_sym, key_email_phone).
    rewrite dict_get_fill_from_hints. unfold get_falsy. rewrite Hemail, Hv, Ht. simpl.
    now destruct (findall_emails w cv_text).
  - intros h rest Hnone Hh.
    rewrite dict_get_fill_from_hints_other by (apply not_eq_sym, key_email_phone).
    rewrite dict_get_fill_from_hints, Hh. unfold get_falsy. now rewrite Hemail, Hnone.
  - intros v Hv Ht.
    rewrite dict_get_fill_from_hints. unfold get_falsy.
    rewrite dict_get_fill_from_hints_other by apply key_email_phone.
    rewrite Hphone, Hv, Ht. simpl. now destruct (findall_phones w cv_text).
  - intros h rest Hnone Hh.
    rewrite dict_get_fill_from_hints, Hh. unfold get_falsy.
    rewrite dict_get_fill_from_hints_other by apply key_email_phone.
    now rewrite Hphone, Hnone.
Qed.

(** ** PDF extraction: which pages are rasterized *)

Lemma has_text_strip (t : str) : has_text t = str_truthy (strip t).
Proof.
  unfold has_text. destruct t as [|c t]; [reflexivity|]. reflexivity.
Qed.

Lemma blank_pages_from_spec (texts : list str) (i j : nat) :
  In j (blank_pages_from i texts) <->
  exists t, nth_error texts (j - i) = Some t /\ i <= j /\ has_text t = false.
Proof.
  revert i. induction texts as [|t texts IH]; intros i; simpl.
  - split; [tauto|]. intros (t & H & _). now destruct (j - i).
  - destruct (has_text t) eqn:Ht.
    + rewrite IH. split.
      * intros (t' & Hn & Hle & Hb). exists t'. split; [|split; [lia|exact Hb]].
        replace (j - i) with (S (j - S i)) by lia. exact Hn.
      * intros (t' & Hn & Hle & Hb).
        destruct (j - i) as [|k] eqn:Hk; simpl in Hn.
        { congruence. }
        exists t'. split; [|split; [lia|exact Hb]].
        replace (j - S i) with k by lia. exact Hn.
    + simpl. rewrite IH. split.
      * intros [<-|(t' & Hn & Hle & Hb)].
        { exists t. rewrite Nat.sub_diag. simpl. auto. }
        exists t'. split; [|split; [lia|exact Hb]].
        replace (j - i) with (S (j - S i)) by lia. exact Hn.
      * intros (t' & Hn & Hle & Hb).
        destruct (j - i) as [|k] eqn:Hk; simpl in Hn.
        { left. lia. }
        right. exists t'. split; [|split; [lia|exact Hb]].
        replace (j - S i) with k by lia. exact Hn.
Qed.

(** A page is in [blank_pages] exactly when it exists and its text layer
    strips to nothing. *)
Lemma blank_pages_spec (texts : list str) (j : nat) :
  In j (blank_pages texts) <->
  exists t, nth_error texts j = Some t /\ strip t = [].
Proof.
  unfold blank_pages. rewrite blank_pages_from_spec. rewrite Nat.sub_0_r.
  split; intros (t & Hn & H); exists t; (split; [exact Hn|]).
  - destruct H as [_ H]. rewrite has_text_strip in H. now destruct (strip t).
  - split; [lia|]. rewrite has_text_strip, H. reflexivity.
Qed.

(** When every page gives its text, the loop ends with the texts of the
    pages that have one and with the indices of the others. *)
Lemma scan_pages_texts (texts : list str) (i : nat) (parts : list str) (blank : list nat) :
  scan_pages (List.map Some texts) i parts blank =
  (true, (parts ++ List.filter has_text texts, blank ++ blank_pages_from i texts)).
Proof.
  revert i parts blank. induction texts as [|t texts IH]; intros i parts blank; simpl.
  - now rewrite !app_nil_r.
  - destruct (has_text t); rewrite IH; now rewrite <- app_assoc.
Qed.

Lemma list_min_le_acc (x : nat) (l : list nat) : list_min x l <= x.
Proof.
  unfold list_min. revert x. induction l as [|y l IH]; intros x; simpl; [lia|].
  specialize (IH (Nat.min x y)). lia.
Qed.

Lemma list_max_ge_acc (x : nat) (l : list nat) : x <= list_max x l.
Proof.
  unfold list_max. revert x. induction l as [|y l IH]; intros x; simpl; [lia|].
  specialize (IH (Nat.max x y)). lia.
Qed.

(** [min] and [max] of a non-empty list: members, and bounds of all. *)
Lemma list_min_spec (x : nat) (l : list nat) :
  In (list_min x l) (x :: l) /\ forall y, In y (x :: l) -> list_min x l <= y.
Proof.
  unfold list_min. revert x. induction l as [|y l IH]; intros x; simpl.
  - split; [auto|]. intros z [Hz|[]]. lia.
  - destruct (IH (Nat.min x y)) as [Hin Hle]. split.
    + destruct Hin as [Heq|Hin]; [|auto].
      rewrite <- Heq. destruct (Nat.min_dec x y) as [->| ->]; auto.
    + pose proof (list_min_le_acc (Nat.min x y) l) as Hacc. unfold list_min in Hacc.
      intros z [Hz|[Hz|Hz]]; [lia|lia|]. apply Hle. now right.
Qed.

Lemma list_max_spec (x : nat) (l : list nat) :
  In (list_max x l) (x :: l) /\ forall y, In y (x :: l) -> y <= list_max x l.
Proof.
  unfold list_max. revert x. induction l as [|y l IH]; intros x; simpl.
  - split; [auto|]. intros z [Hz|[]]. lia.
  - destruct (IH (Nat.max x y)) as [Hin Hle]. split.
    + destruct Hin as [Heq|Hin]; [|auto].
      rewrite <- Heq. destruct (Nat.max_dec x y) as [->| ->]; auto.
    + pose proof (list_max_ge_acc (Nat.max x y) l) as Hacc. unfold list_max in Hacc.
      intros z [Hz|[Hz|Hz]]; [lia|lia|]. apply Hle. now right.
Qed.

Lemma least_unique (l : list nat) (a b : nat) :
  In a l -> (forall y, In y l -> a <= y) ->
  In b l -> (forall y, In y l -> b <= y) -> a = b.
Proof. intros Ha Hal Hb Hbl. specialize (Hal b Hb). specialize (Hbl a Ha). lia. Qed.

Lemma greatest_unique (l : list nat) (a b : nat) :
  In a l -> (forall y, In y l -> y <= a) ->
  In b l -> (forall y, In y l -> y <= b) -> a = b.
Proof. intros Ha Hal Hb Hbl. specialize (Hal b Hb). specialize (Hbl a Ha). lia. Qed.

(** The OCR loop of the main path asks for every image and keeps the text
    of those Tesseract could read. *)
Lemma ocr_each_guarded_spec (w : World) (images : list image) (acc : list str * list call) :
  ocr_each_guarded w images acc =
  (fst acc ++ omap (image_to_string w) images, snd acc ++ List.map Ocr images).
Proof.
  revert acc. induction images as [|img images IH]; intros [parts calls]; simpl.
  - now rewrite !app_nil_r.
  - destruct (image_to_string w img) as [t|]; rewrite IH; simpl;
      now rewrite <- !app_assoc.
Qed.

(** The main path of [extract_text_pdf] when the document parses. *)
Lemma pdf_try_parsed (w : World) (p : path) (texts : list str) :
  fitz_open w p = Some (List.map Some texts) ->
  pdf_try w p =
  match blank_pages texts with
  | [] => (true, (List.filter has_text texts, []))
  | i :: more =>
      let r := Some (list_min i more + 1, list_max i more + 1) in
      match convert_from_path w p r with
      | Some images =>
          (true, (List.filter has_text texts ++ omap (image_to_string w) images,
                  Rasterize p r :: List.map Ocr images))
      | None => (false, (List.filter has_text texts, [Rasterize p r]))
      end
  end.
Proof.
  intros Hopen. unfold pdf_try. rewrite Hopen, scan_pages_texts. simpl.
  fold (blank_pages texts).
  destruct (blank_pages texts) as [|i more]; [reflexivity|].
  destruct (convert_from_path w p _) as [images|]; [|reflexivity].
  now rewrite ocr_each_guarded_spec.
Qed.

Lemma ocr_each_calls (w : World) (images : list image) (acc : list str * list call) :
  exists more, snd (ocr_each w images acc) = snd acc ++ more.
Proof.
  revert acc. induction images as [|img images IH]; intros [parts calls]; simpl.
  - exists []. now rewrite app_nil_r.
  - destruct (image_to_string w img) as [t|].
    + destruct (IH (parts ++ [t], calls ++ [Ocr img])) as [more Hmore].
      exists (Ocr img :: more). rewrite Hmore. simpl. now rewrite <- app_assoc.
    + now exists [Ocr img].
Qed.

Lemma pdf_except_calls (w : World) (p : path) (acc : list str * list call) :
  exists more, snd (pdf_except w p acc) = snd acc ++ Rasterize p None :: more.
Proof.
  unfold pdf_except. destruct (convert_from_path w p None) as [images|].
  - destruct (ocr_each_calls w images (fst acc, snd acc ++ [Rasterize p None]))
      as [more Hmore].
    exists more. rewrite Hmore. simpl. now rewrite <- app_assoc.
  - exists []. reflexivity.
Qed.

(** The main path on a document that parses and has blank pages from [lo]
    to [hi]: one request, for that range. *)
Lemma pdf_try_blank_range (w : World) (p : path) (texts : list str) (lo hi : nat) :
  fitz_open w p = Some (List.map Some texts) ->
  In lo (blank_pages texts) -> (forall i, In i (blank_pages texts) -> lo <= i) ->
  In hi (blank_pages texts) -> (forall i, In i (blank_pages texts) -> i <= hi) ->
  pdf_try w p =
  match convert_from_path w p (Some (lo + 1, hi + 1)) with
  | Some images =>
      (true, (List.filter has_text texts ++ omap (image_to_string w) images,
              Rasterize p (Some (lo + 1, hi + 1)) :: List.map Ocr images))
  | None => (false, (List.filter has_text texts, [Rasterize p (Some (lo + 1, hi + 1))]))
  end.
Proof.
  intros Hopen Hlo Hlo_least Hhi Hhi_greatest.
  rewrite (pdf_try_parsed w p texts Hopen).
  destruct (blank_pages texts) as [|i more] eqn:Hblank; [destruct Hlo|].
  destruct (list_min_spec i more) as [Hmin Hmin_least].
  destruct (list_max_spec i more) as [Hmax Hmax_greatest].
  assert (Elo : list_min i more = lo) by (eapply least_unique; eauto).
  assert (Ehi : list_max i more = hi) by (eapply greatest_unique; eauto).
  cbv zeta. now rewrite Elo, Ehi.
Qed.

(** C2 (amended). For a PDF that parses (the document opens and every
    page yields its text): when no page is blank, neither the rasterizer
    nor the OCR engine is called; when some page is blank, the program's
    first request to the rasterizer is for the pages from the least to the
    greatest blank index (numbered from 1, both ends included); when that
    request is served, it is the only request and OCR runs on the images
    it returned and on nothing else; when that request raises, the next
    request is for the whole document. *)
Theorem pdf_rasterizes_blank_range (w : World) (p : path) (texts : list str) :
  fitz_open w p = Some (List.map Some texts) ->
  (blank_pages texts = [] -> pdf_calls w p = [])
  /\ (forall lo hi,
        In lo (blank_pages texts) -> (forall i, In i (blank_pages texts) -> lo <= i) ->
        In hi (blank_pages texts) -> (forall i, In i (blank_pages texts) -> i <= hi) ->
        (exists more, pdf_calls w p = Rasterize p (Some (lo + 1, hi + 1)) :: more)
        /\ (forall images,
              convert_from_path w p (Some (lo + 1, hi + 1)) = Some images ->
              pdf_calls w p =
                Rasterize p (Some (lo + 1, hi + 1)) :: List.map Ocr images)
        /\ (convert_from_path w p (Some (lo + 1, hi + 1)) = None ->
            exists more,
              pdf_calls w p =
                Rasterize p (Some (lo + 1, hi + 1)) :: Rasterize p None :: more)).
Proof.
  intros Hopen. unfold pdf_calls, pdf_run. split.
  - intros Hnone. rewrite (pdf_try_parsed w p texts Hopen), Hnone. reflexivity.
  - intros lo hi Hlo Hlo_least Hhi Hhi_greatest.
    rewrite (pdf_try_blank_range w p texts lo hi Hopen Hlo Hlo_least Hhi Hhi_greatest).
    destruct (pdf_except_calls w p
                (List.filter has_text texts, [Rasterize p (Some (lo + 1, hi + 1))]))
      as [extra Hextra].
    split; [|split].
    + destruct (convert_from_path w p _) as [images|].
      * eexists. reflexivity.
      * rewrite Hextra. simpl. eexists. reflexivity.
    + intros images Himages. rewrite Himages. reflexivity.
    + intros Hraise. rewrite Hraise, Hextra. simpl. eexists. reflexivity.
Qed.

(** ** What [strip] and [join] keep *)

Lemma lstrip_app_nonspace (x z : str) (c : char) :
  isspace c = false -> lstrip (x ++ c :: z) = lstrip x ++ c :: z.
Proof.
  intros Hc. induction x as [|a x IH]; simpl.
  - now rewrite Hc.
  - destruct (isspace a); [exact IH|reflexivity].
Qed.

Lemma rstrip_app_nonspace (z y : str) (c : char) :
  isspace c = false -> rstrip (z ++ c :: y) = z ++ c :: rstrip y.
Proof.
  intros Hc. unfold rstrip. rewrite rev_app_distr. simpl. rewrite <- app_assoc. simpl.
  rewrite (lstrip_app_nonspace _ _ _ Hc), rev_app_distr. simpl.
  rewrite rev_involutive. now rewrite <- app_assoc.
Qed.

Lemma lstrip_suffix (s : str) : exists p, s = p ++ lstrip s.
Proof.
  induction s as [|a s [p Hp]]; simpl.
  - now exists [].
  - destruct (isspace a).
    + exists (a :: p). simpl. now rewrite <- Hp.
    + now exists [].
Qed.

Lemma lstrip_head (s s' : str) (c : char) : lstrip s = c :: s' -> isspace c = false.
Proof.
  induction s as [|a s IH]; simpl; [discriminate|].
  destruct (isspace a) eqn:Ha; [exact IH|]. intros [= <- _]. exact Ha.
Qed.

Lemma rstrip_prefix (s : str) : exists q, s = rstrip s ++ q.
Proof.
  unfold rstrip. destruct (lstrip_suffix (rev s)) as [p Hp].
  exists (rev p). rewrite <- rev_app_distr, <- Hp. now rewrite rev_involutive.
Qed.

Lemma rstrip_last (s m : str) (d : char) : rstrip s = m ++ [d] -> isspace d = false.
Proof.
  unfold rstrip. intros H.
  assert (H' : lstrip (rev s) = d :: rev m).
  { rewrite <- (rev_involutive (lstrip (rev s))), H, rev_app_distr. reflexivity. }
  now apply lstrip_head in H'.
Qed.

(** A text that does not strip to nothing is its stripped form between two
    margins, and the stripped form begins and ends with a character that
    is not whitespace. *)
Lemma strip_core (t : str) :
  strip t <> [] ->
  exists p1 p2 c body m d,
    t = p1 ++ strip t ++ p2 /\
    strip t = c :: body /\ isspace c = false /\
    strip t = m ++ [d] /\ isspace d = false.
Proof.
  intros Hne. unfold strip in *.
  destruct (rstrip_prefix t) as [q Hq].
  destruct (lstrip_suffix (rstrip t)) as [p Hp].
  destruct (lstrip (rstrip t)) as [|c body] eqn:Hl; [congruence|].
  destruct (exists_last (l := c :: body)) as (m & d & Hmd); [discriminate|].
  exists p, q, c, body, m, d. repeat split.
  - rewrite Hq at 1. rewrite Hp at 1. now rewrite <- app_assoc.
  - eapply lstrip_head. exact Hl.
  - exact Hmd.
  - apply (rstrip_last t (p ++ m)). rewrite Hp, Hmd. now rewrite app_assoc.
Qed.

(** Stripping a text removes nothing of a part that begins and ends with a
    character that is not whitespace. *)
Lemma strip_keeps_core (x y : str) (c d : char) (body m : str) :
  c :: body = m ++ [d] -> isspace c = false -> isspace d = false ->
  strip (x ++ (c :: body) ++ y) = lstrip x ++ (c :: body) ++ rstrip y.
Proof.
  intros Hmd Hc Hd. unfold strip.
  assert (Hr : rstrip (x ++ (c :: body) ++ y) = x ++ (c :: body) ++ rstrip y).
  { rewrite Hmd. rewrite <- (app_assoc m). simpl. rewrite app_assoc.
    rewrite (rstrip_app_nonspace _ _ _ Hd). now rewrite <- !app_assoc. }
  rewrite Hr. simpl. apply (lstrip_app_nonspace _ _ _ Hc).
Qed.

(** A text inside a stripped whole is still there in its own stripped
    form. *)
Lemma strip_contains (a t b : str) :
  exists a' b', strip (a ++ t ++ b) = a' ++ strip t ++ b'.
Proof.
  destruct (decide (strip t = [])) as [He|Hne].
  - exists [], (strip (a ++ t ++ b)). now rewrite He.
  - destruct (strip_core t Hne) as (p1 & p2 & c & body & m & d & Ht & Hc & Hcs & Hm & Hds).
    exists (lstrip (a ++ p1)), (rstrip (p2 ++ b)).
    rewrite Ht at 1.
    replace (a ++ (p1 ++ strip t ++ p2) ++ b)
      with ((a ++ p1) ++ strip t ++ (p2 ++ b))
      by (now rewrite <- !app_assoc).
    rewrite Hc. apply (strip_keeps_core _ _ c d body m); [|exact Hcs|exact Hds].
    exact (eq_trans (eq_sym Hc) Hm).
Qed.







(** ** PDF extraction: the fallback path *)

Lemma ocr_each_stops (w : World) (before after : list image) (bad : image)
    (acc : list str * list call) :
  Forall (fun img => is_Some (image_to_string w img)) before ->
  image_to_string w bad = None ->
  ocr_each w (before ++ bad :: after) acc =
  (fst acc ++ omap (image_to_string w) before,
   snd acc ++ List.map Ocr before ++ [Ocr bad]).
Proof.
  intros Hbefore Hbad. revert acc.
  induction Hbefore as [|img before [t Himg] _ IH]; intros [parts calls]; simpl.
  - rewrite Hbad. now rewrite app_nil_r.
  - rewrite Himg, IH. simpl. now rewrite <- !app_assoc.
Qed.

(** X6. When the document does not open and Tesseract raises on one page
    of the fallback, the pages before it contribute their text and the
    pages after it are never handed to Tesseract. *)
Lemma pdf_fallback_stops_at_failed_page (w : World) (p : path)
    (before after : list image) (bad : image) :
  fitz_open w p = None ->
  convert_from_path w p None = Some (before ++ bad :: after) ->
  Forall (fun img => is_Some (image_to_string w img)) before ->
  image_to_string w bad = None ->
  pdf_text_parts w p = omap (image_to_string w) before
  /\ pdf_calls w p = Rasterize p None :: List.map Ocr before ++ [Ocr bad].
Proof.
  intros Hopen Himages Hbefore Hbad.
  unfold pdf_text_parts, pdf_calls, pdf_run, pdf_try, pdf_except.
  rewrite Hopen. simpl. rewrite Himages.
  rewrite (ocr_each_stops w before after bad _ Hbefore Hbad). simpl. split; reflexivity.
Qed.

(** ** Ranking *)

Lemma Qlt_bool_true (x y : Q) : Qlt_bool x y = true -> (x < y)%Q.
Proof.
  unfold Qlt_bool. intros H. apply negb_true_iff in H.
  apply Qnot_le_lt. intros Hle. apply Qle_bool_iff in Hle. congruence.
Qed.

Lemma Qlt_bool_false (x y : Q) : Qlt_bool x y = false -> (y <= x)%Q.
Proof.
  unfold Qlt_bool. intros H. apply negb_false_iff in H. now apply Qle_bool_iff.
Qed.

Lemma py_lt_numeric (x y : json * dict) :
  numeric x -> numeric y -> py_lt (fst x) (fst y) = Some (Qlt_bool (num x) (num y)).
Proof.
  unfold numeric, num. destruct x as [a ra], y as [b rb]. simpl.
  intros [qa Ha] [qb Hb]. rewrite Ha, Hb.
  destruct a; try discriminate; destruct b; try discriminate;
    simpl in *; injection Ha as <-; injection Hb as <-; reflexivity.
Qed.

Lemma filter_swap_exclusive {A : Type} (f : A -> bool) (x y : A) (l l' : list A) :
  (f x = true -> f y = true -> False) ->
  List.filter f l' = List.filter f (x :: l) ->
  List.filter f (y :: l') = List.filter f (x :: y :: l).
Proof.
  intros Hexcl Hl'. simpl in *. rewrite Hl'.
  destruct (f x) eqn:Hx, (f y) eqn:Hy; try reflexivity.
  exfalso. now apply Hexcl.
Qed.

(** Inserting into a ranked list of numeric keys: the insertion returns,
    adds the element and nothing else, keeps the list ranked and keeps
    elements of equal score in their order, the new one first. *)
Lemma insert_desc_spec (x : json * dict) (sorted : list (json * dict)) :
  numeric x -> Forall numeric sorted ->
  exists l, insert_desc x sorted = Return l
    /\ Permutation (x :: sorted) l
    /\ (forall q, List.filter (keq q) l = List.filter (keq q) (x :: sorted))
    /\ (StronglySorted kge sorted -> StronglySorted kge l).
Proof.
  intros Hx Hsorted. induction Hsorted as [|y rest Hy Hrest IH].
  - exists [x]. simpl. repeat split; auto.
    intros _. repeat constructor.
  - simpl. rewrite (py_lt_numeric x y Hx Hy).
    destruct (Qlt_bool (num x) (num y)) eqn:Hlt.
    + destruct IH as (l & Hl & Hperm & Hstable & Hranked). rewrite Hl.
      exists (y :: l). split; [reflexivity|]. split; [|split].
      * rewrite perm_swap. now constructor.
      * intros q. apply filter_swap_exclusive; [|apply Hstable].
        unfold keq. intros Hxq Hyq.
        apply Qeq_bool_iff in Hxq, Hyq. apply Qlt_bool_true in Hlt.
        rewrite Hxq, Hyq in Hlt. now apply Qlt_irrefl in Hlt.
      * intros Hss. inversion Hss as [|? ? Hss' Hall]; subst.
        constructor; [now apply Hranked|].
        eapply Permutation_Forall; [exact Hperm|].
        constructor; [|exact Hall].
        unfold kge. apply Qlt_le_weak. now apply Qlt_bool_true.
    + exists (x :: y :: rest). split; [reflexivity|]. split; [reflexivity|].
      split; [reflexivity|].
      intros Hss. constructor; [exact Hss|].
      apply Qlt_bool_false in Hlt.
      constructor; [exact Hlt|].
      inversion Hss as [|? ? _ Hall]; subst.
      eapply List.Forall_impl; [|exact Hall].
      intros z Hz. unfold kge in *. eapply Qle_trans; eassumption.
Qed.

Lemma sort_desc_spec (l : list (json * dict)) :
  Forall numeric l ->
  exists sorted, sort_desc l = Return sorted
    /\ Permutation l sorted
    /\ (forall q, List.filter (keq q) sorted = List.filter (keq q) l)
    /\ StronglySorted kge sorted.
Proof.
  intros Hl. induction Hl as [|x rest Hx Hrest IH].
  - exists []. repeat split; auto. constructor.
  - destruct IH as (sorted & Hsort & Hperm & Hstable & Hranked).
    simpl. rewrite Hsort.
    assert (Hnum : Forall numeric sorted)
      by (eapply Permutation_Forall; eassumption).
    destruct (insert_desc_spec x sorted Hx Hnum) as (l & Hl & Hperm' & Hstable' & Hranked').
    exists l. split; [exact Hl|]. split; [|split].
    + rewrite <- Hperm'. now constructor.
    + intros q. rewrite Hstable'. simpl. now rewrite Hstable.
    + now apply Hranked'.
Qed.

Lemma with_keys_spec (results : list dict) :
  Forall (fun r => is_Some (score_of r)) results ->
  exists keyed, with_keys results = Return keyed
    /\ List.map snd keyed = results /\ Forall keyed_ok keyed.
Proof.
  intros H. induction H as [|r rest [q Hq] _ (keyed & Hk & Hmap & Hok)].
  - exists []. repeat split; auto.
  - unfold score_of in Hq. simpl. unfold score_key.
    destruct (dict_get (lit "score") r) as [v|] eqn:Hv; [|discriminate].
    rewrite Hk. exists ((v, r) :: keyed). simpl. rewrite Hmap.
    repeat split; auto. constructor; [|exact Hok].
    split; [exact Hv|]. unfold numeric. simpl. now rewrite Hq.
Qed.

Lemma keyed_filter (q : Q) (l : list (json * dict)) :
  Forall keyed_ok l ->
  List.filter (same_score q) (List.map snd l) = List.map snd (List.filter (keq q) l).
Proof.
  intros H. induction H as [|[k r] l [Hk [x Hx]] _ IH]; [reflexivity|].
  simpl in *. rewrite IH.
  assert (E : same_score q r = keq q (k, r)).
  { unfold same_score, score_of, keq, num. simpl. now rewrite Hk, Hx. }
  rewrite E. now destruct (keq q (k, r)).
Qed.

Lemma keyed_ranked (l : list (json * dict)) :
  Forall keyed_ok l -> StronglySorted kge l -> StronglySorted score_ge (List.map snd l).
Proof.
  intros Hok Hss. induction Hss as [|kx l Hss IH Hall]; simpl; [constructor|].
  inversion Hok as [|? ? Hkx Hl]; subst.
  constructor; [now apply IH|].
  rewrite List.Forall_forall in *. intros b Hb.
  apply in_map_iff in Hb as (ky & <- & Hky).
  specialize (Hall ky Hky). specialize (Hl ky Hky).
  destruct Hkx as [Hkx [x Hx]], Hl as [Hk [y Hy]].
  exists x, y. unfold score_of, kge, num in *.
  rewrite Hkx, Hk, Hx, Hy in *. auto.
Qed.

(** [results.sort(key=lambda x: x["score"], reverse=True)] on results that
    all carry a numeric score: the sort returns the same results, highest
    score first, and results of equal score in the order they had. *)
Lemma sort_by_score_spec (results : list dict) :
  Forall (fun r => is_Some (score_of r)) results ->
  exists out, sort_by_score results = Return out
    /\ Permutation results out
    /\ StronglySorted score_ge out
    /\ (forall q, List.filter (same_score q) out = List.filter (same_score q) results).
Proof.
  intros H. destruct (with_keys_spec results H) as (keyed & Hk & Hmap & Hok).
  assert (Hnum : Forall numeric keyed)
    by (eapply List.Forall_impl; [|exact Hok]; now intros ? [_ ?]).
  destruct (sort_desc_spec keyed Hnum) as (sorted & Hsort & Hperm & Hstable & Hranked).
  assert (Hok' : Forall keyed_ok sorted)
    by (eapply Permutation_Forall; eassumption).
  exists (List.map snd sorted). unfold sort_by_score. rewrite Hk, Hsort.
  split; [reflexivity|]. split; [|split].
  - rewrite <- Hmap. now apply Permutation_map.
  - now apply keyed_ranked.
  - intros q. rewrite <- Hmap, !keyed_filter by assumption. now rewrite Hstable.
Qed.

(** ** The cache *)

Lemma has_cr_cons (c : char) (s : str) :
  has_cr (c :: s) = false -> (c =? ch_cr)%N = false /\ has_cr s = false.
Proof.
  unfold has_cr. cbn [existsb]. intros H.
  apply orb_false_iff in H as [Hc Hs]. split; [|exact Hs].
  now rewrite N.eqb_sym.
Qed.

Lemma universal_newlines_no_cr (s : str) :
  has_cr s = false -> universal_newlines s = s.
Proof.
  induction s as [|c s IH]; [reflexivity|].
  intros H. apply has_cr_cons in H as [Hc Hs].
  cbn [universal_newlines]. rewrite Hc. now rewrite IH.
Qed.




(** [extract_text] changes nothing but the cache. *)
Lemma extract_text_files (w : World) (st st1 : State) (p : path) (text : str) :
  extract_text w st p = Return (text, st1) ->
  files st1 = files st /\ latest_results st1 = latest_results st.
Proof.
  unfold extract_text. destruct (_cache_path w st p) as [cp|]; [|discriminate].
  destruct (cache st !! cp) as [entry|].
  - intros [= _ <-]. auto.
  - match goal with |- context [match ?x with Return _ => _ | Raise _ => _ end] =>
      destruct x as [t|]; [|discriminate] end.
    intros [= _ <-]. unfold cache_write.
    destruct (cache_writable w); [|auto].
    destruct (encodable t); auto.
Qed.



(** ** Plain text *)

(** The two exits of [extract_text_plain]: on a file that can be read,
    the bytes decoded as UTF-8 with undecodable bytes dropped (never the
    Latin-1 reading), line endings normalised; on a file that cannot be
    read or is not there, the second read raises as the first did and the
    exception leaves the function. *)
Theorem extract_text_plain_returns_iff_readable (w : World) (st : State) (p : path) :
  (forall b, read_bytes st p = Return b ->
     extract_text_plain w st p = Return (universal_newlines (decode_utf8_ignore w b)))
  /\ (forall e, read_bytes st p = Raise e -> extract_text_plain w st p = Raise e).
Proof.
  unfold extract_text_plain. split.
  - intros b ->. reflexivity.
  - intros e ->. reflexivity.
Qed.

(** ** One document *)

Lemma process_one_blank_text (w : World) (st st1 : State) (p : path) (text : str)
    (job_json : dict) :
  extract_text w st p = Return (text, st1) -> strip text = [] ->
  process_one w st p job_json = (Return empty_text_record, st1)
  /\ lookup_file p (files st1) = lookup_file p (files st).
Proof.
  intros Hx Hblank. unfold process_one. rewrite Hx, Hblank. simpl.
  split; [reflexivity|].
  destruct (extract_text_files w st st1 p text Hx) as [-> _]. reflexivity.
Qed.

Lemma process_one_with_text (w : World) (st st1 : State) (p : path) (text : str)
    (job_json : dict) :
  extract_text w st p = Return (text, st1) -> strip text <> [] ->
  process_one w st p job_json =
  (Return (dict_merge (parse_cv w text) (score_candidate w (parse_cv w text) job_json)),
   try_unlink w p st1).
Proof.
  intros Hx Htext. unfold process_one. rewrite Hx.
  destruct (strip text); [congruence|reflexivity].
Qed.

Lemma process_one_raises (w : World) (st : State) (p : path) (e : exn) (job_json : dict) :
  extract_text w st p = Raise e -> process_one w st p job_json = (Raise e, st).
Proof. intros Hx. unfold process_one. now rewrite Hx. Qed.



(** ** The pool *)

Lemma pick_perm {A : Type} (n : nat) (l r : list A) (x : A) :
  pick n l = Some (x, r) -> Permutation l (x :: r).
Proof.
  revert n r. induction l as [|a l IH]; intros n r; [destruct n; discriminate|].
  destruct n as [|n]; simpl.
  - intros [= <- <-]. reflexivity.
  - destruct (pick n l) as [[y r']|] eqn:Hp; [|discriminate].
    intros [= <- <-]. rewrite (IH _ _ Hp). apply perm_swap.
Qed.

Lemma pick_some {A : Type} (n : nat) (l : list A) :
  n < length l -> exists x r, pick n l = Some (x, r) /\ S (length r) = length l.
Proof.
  revert n. induction l as [|a l IH]; intros n; simpl; [lia|].
  destruct n as [|n]; intros Hn; simpl.
  - now exists a, l.
  - destruct (IH n) as (x & r & Hp & Hlen); [lia|].
    rewrite Hp. exists x, (a :: r). simpl. split; [reflexivity|]. now rewrite Hlen.
Qed.

Lemma completion_order_perm {A : Type} (sched : nat -> nat) (fuel step : nat)
    (pending : list A) :
  length pending = fuel -> Permutation pending (completion_order sched step fuel pending).
Proof.
  revert step pending. induction fuel as [|fuel IH]; intros step pending Hlen; simpl.
  - destruct pending; [constructor|discriminate].
  - destruct (pick_some (sched step mod length pending) pending) as (x & r & Hp & Hr).
    { apply Nat.mod_upper_bound. lia. }
    rewrite Hp. rewrite (pick_perm _ _ _ _ Hp). constructor. apply IH. lia.
Qed.

(** Whatever the schedule, every task completes exactly once. *)
Lemma as_completed_perm {A : Type} (sched : nat -> nat) (futs : list A) :
  Permutation futs (as_completed sched futs).
Proof. now apply completion_order_perm. Qed.

Lemma collect_app (w : World) (st : State) (pre post : list path) (job_json : dict)
    (acc : list dict) :
  collect w st (pre ++ post) job_json acc =
  collect w (snd (collect w st pre job_json acc)) post job_json
    (fst (collect w st pre job_json acc)).
Proof.
  revert st acc. induction pre as [|f pre IH]; intros st acc; simpl; [reflexivity|].
  destruct (process_one w st f job_json) as [[r|e] st']; apply IH.
Qed.



Lemma index_unfold (w : World) (st : State) (job_desc_text : str) (sched : nat -> nat) :
  index w st job_desc_text sched =
  match sort_by_score (collected_results w st job_desc_text sched) with
  | Return out =>
      (Return out,
       set_latest out
         (snd (collect w st (as_completed sched (discovered st))
                 (parse_job w job_desc_text) [])))
  | Raise e =>
      (Raise e,
       snd (collect w st (as_completed sched (discovered st))
              (parse_job w job_desc_text) []))
  end.
Proof.
  unfold index, collected_results.
  destruct (collect w st _ _ []) as [results st1]. reflexivity.
Qed.

(** ** The run *)

(** C3 (amended). In a run whose collected records all carry a finite
    numeric score (an integer, a boolean or a float that is neither [NaN]
    nor infinite), [index] returns the collected records sorted by score,
    highest first, and records of equal score stand in the order in which
    [as_completed] yielded the futures of their tasks. *)
Theorem ranking_sorted_stable_over_completion_order
    (w : World) (st : State) (job_desc_text : str) (sched : nat -> nat) :
  Forall (fun r => is_Some (score_of r)) (collected_results w st job_desc_text sched) ->
  exists out,
    fst (index w st job_desc_text sched) = Return out
    /\ Permutation (collected_results w st job_desc_text sched) out
    /\ StronglySorted score_ge out
    /\ (forall q, List.filter (same_score q) out =
                  List.filter (same_score q) (collected_results w st job_desc_text sched)).
Proof.
  intros Hscored.
  destruct (sort_by_score_spec _ Hscored) as (out & Hsort & Hperm & Hranked & Hstable).
  exists out. rewrite index_unfold, Hsort. simpl. auto.
Qed.

(** * The sample worlds, run *)

Lemma all_scored (l : list dict) :
  forallb scored l = true -> Forall (fun r => is_Some (score_of r)) l.
Proof.
  intros H. apply List.Forall_forall. intros r Hr.
  rewrite forallb_forall in H. specialize (H r Hr).
  unfold scored in H. destruct (score_of r) as [q|]; [now exists q|discriminate].
Qed.

(** The ranking of the scores 40, 90, 90, 10: the first 90 stays first. *)
Example sort_by_score_40_90_90_10 :
  sort_by_score
    [ [(lit "id", JNum 1); (lit "score", JNum 40)];
      [(lit "id", JNum 2); (lit "score", JNum 90)];
      [(lit "id", JNum 3); (lit "score", JNum 90)];
      [(lit "id", JNum 4); (lit "score", JNum 10)] ]
  = Return
    [ [(lit "id", JNum 2); (lit "score", JNum 90)];
      [(lit "id", JNum 3); (lit "score", JNum 90)];
      [(lit "id", JNum 1); (lit "score", JNum 40)];
      [(lit "id", JNum 4); (lit "score", JNum 10)] ].
Proof. reflexivity. Qed.

(** C1. A file that holds nothing but spaces goes through [index]: no
    result, nothing to export, and the file is still in the source
    directory afterwards. *)
Theorem blank_document_is_not_deleted :
  discovered blank_only = [blank_txt]
  /\ fst (index quiet_world blank_only [] in_order) = Return []
  /\ download_csv (snd (index quiet_world blank_only [] in_order)) = None
  /\ lookup_file blank_txt (files (snd (index quiet_world blank_only [] in_order)))
     = Some blank_file.
Proof. vm_compute. auto. Qed.

(** A file with text is gone after the same run. *)
Example scored_document_is_deleted :
  lookup_file ada_txt (files (snd (index quiet_world ada_only [] in_order))) = None.
Proof. vm_compute. reflexivity. Qed.

(** The scanned PDF: pages 0 and 3 are blank, one request for pages 1 to 4
    (counted from 1), OCR on the four images. *)
Lemma scan_pdf_rasterizes_pages_0_to_3 :
  blank_pages scan_texts = [0; 3]
  /\ pdf_calls scan_world scan_pdf =
       Rasterize scan_pdf (Some (1, 4))
       :: List.map Ocr (List.map (Image scan_pdf) [0; 1; 2; 3]).
Proof.
  split; [reflexivity|].
  destruct (pdf_rasterizes_blank_range scan_world scan_pdf scan_texts eq_refl)
    as [_ Hrange].
  destruct (Hrange 0 3) as (_ & Hcalls & _).
  - vm_compute. auto.
  - intros i _. lia.
  - vm_compute. auto.
  - intros i Hi. vm_compute in Hi. destruct Hi as [<-|[<-|[]]]; lia.
  - apply Hcalls. reflexivity.
Defined.

(** C2, the claim refuted. The document parses and its blank pages are 1
    and 2; the request for pages 2 to 3 raises and the [except] branch
    rasterizes the whole document: OCR runs on pages 0, 3 and 4 as well. *)
Lemma range_failure_reaches_other_pages :
  fitz_open narrow_world narrow_pdf = Some (List.map Some narrow_texts)
  /\ blank_pages narrow_texts = [1; 2]
  /\ pdf_calls narrow_world narrow_pdf =
       Rasterize narrow_pdf (Some (2, 3)) :: Rasterize narrow_pdf None
       :: List.map Ocr (List.map (Image narrow_pdf) [0; 1; 2; 3; 4]).
Proof. vm_compute. auto. Qed.


(** C6. The PDF does not open and Tesseract raises on page 1 of three: the
    fallback keeps page 0 and never reaches page 2.  In a document that
    opens, the same unreadable page costs only itself. *)
Theorem fallback_ocr_failure_drops_later_pages :
  fitz_open broken_world broken_pdf = None
  /\ pdf_calls broken_world broken_pdf =
       [ Rasterize broken_pdf None; Ocr (Image broken_pdf 0); Ocr (Image broken_pdf 1) ]
  /\ pdf_text_parts broken_world broken_pdf = [ page_label (Image broken_pdf 0) ]
  /\ pdf_text_parts smudged_world broken_pdf =
       [ page_label (Image broken_pdf 0); page_label (Image broken_pdf 2) ].
Proof. vm_compute. auto. Qed.

(** C3, the claim refuted. Two candidates with the same score, Ada
    discovered before Bob: when [as_completed] yields Bob's future first,
    Bob is ranked first. *)
Lemma tie_order_follows_completion :
  discovered two_cvs = [ada_txt; bob_txt]
  /\ score_of ada_90 = score_of bob_90
  /\ fst (index tie_world two_cvs [] in_order) = Return [ada_90; bob_90]
  /\ fst (index tie_world two_cvs [] last_first) = Return [bob_90; ada_90].
Proof. vm_compute. auto. Qed.

Lemma tie_run_ranked :
  Forall (fun r => is_Some (score_of r)) (collected_results tie_world two_cvs [] last_first)
  /\ exists out,
       fst (index tie_world two_cvs [] last_first) = Return out
       /\ Permutation (collected_results tie_world two_cvs [] last_first) out
       /\ StronglySorted score_ge out
       /\ (forall q, List.filter (same_score q) out =
                     List.filter (same_score q)
                       (collected_results tie_world two_cvs [] last_first)).
Proof.
  assert (H : Forall (fun r => is_Some (score_of r))
                (collected_results tie_world two_cvs [] last_first))
    by (apply all_scored; vm_compute; reflexivity).
  split; [exact H|].
  exact (ranking_sorted_stable_over_completion_order tie_world two_cvs [] last_first H).
Defined.

(** C4. The judge scores Ada with an object that has no score: the sort
    raises [KeyError] and the run returns nothing, not even Bob. *)
Theorem missing_score_aborts_the_run :
  discovered two_cvs = [ada_txt; bob_txt]
  /\ score_candidate no_score_world (parse_cv no_score_world ada_text) (parse_job no_score_world [])
     = [(lit "matching_points", JArr [])]
  /\ fst (index no_score_world two_cvs [] in_order) = Raise KeyError.
Proof. vm_compute. auto. Qed.


(** C7. The same unchanged document extracted twice, cold then warm.  A
    text with a carriage return comes back from the cache with a line feed
    in its place; a text with a lone surrogate cannot be written, the
    entry is left empty and the second extraction returns the empty
    text. *)
Theorem cache_hit_returns_other_text :
  match extract_text cr_world cr_only cr_docx with
  | Return (cold, st1) =>
      cold = cr_text
      /\ extract_text cr_world st1 cr_docx
         = Return (lit "Ada" ++ [ch_nl] ++ lit "Lovelace", st1)
  | Raise _ => False
  end
  /\ match extract_text surrogate_world surrogate_only surrogate_pdf with
     | Return (cold, st1) =>
         cold = surrogate_text
         /\ extract_text surrogate_world st1 surrogate_pdf = Return ([], st1)
     | Raise _ => False
     end.
Proof. vm_compute. auto. Qed.


(** C8. A file that is not there, and one that is there but cannot be
    read: the read raises, the [except] branch repeats it outside any
    [try], and plain-text extraction raises, where the extractors of the
    other two formats return the empty text. *)
Theorem plain_text_raises_on_unreadable_file :
  extract_text_plain quiet_world (source_dir []) ada_txt = Raise OSError
  /\ extract_text_plain quiet_world (source_dir [(ada_txt, File 100 None)]) ada_txt
     = Raise OSError
  /\ extract_text_docx quiet_world ada_txt = []
  /\ extract_text_pdf quiet_world ada_txt = [].
Proof. repeat split; reflexivity. Qed.

(** The judge's email wins over the hint; without one, the hint is used. *)
Lemma judge_email_wins_then_hint :
  findall_emails judge_email_world email_text = [lit "ada@hint.org"]
  /\ dict_get (lit "email") (parse_cv judge_email_world email_text)
     = Some (JStr (lit "ada@judge.org"))
  /\ dict_get (lit "email") (parse_cv hint_email_world email_text)
     = Some (JStr (lit "ada@hint.org")).
Proof.
  split; [reflexivity|]. split.
  - apply (proj1 (parse_cv_hints_are_defaults judge_email_world email_text
                    reply_email reply_email_span
                    [(lit "email", JStr (lit "ada@judge.org"))]
                    eq_refl eq_refl eq_refl)); reflexivity.
  - apply (proj1 (proj2 (parse_cv_hints_are_defaults hint_email_world email_text
                    reply_name_only reply_name_only
                    [(lit "first_name", JStr (lit "Ada"))]
                    eq_refl eq_refl eq_refl)) (lit "ada@hint.org") []); reflexivity.
Defined.

(** * Further properties of the program *)

(** ** Locating the JSON object in a reply *)

Lemma find_char_spec (c : char) (s : str) (i : nat) :
  find_char c s = Some i <->
  exists pre rest, s = pre ++ c :: rest /\ length pre = i /\ ~ In c pre.
Proof.
  revert i. induction s as [|x s IH]; intros i; simpl.
  - split; [discriminate|]. intros (pre & rest & H & _). now destruct pre.
  - destruct (x =? c)%N eqn:E.
    + apply N.eqb_eq in E. subst x. split.
      * intros [= <-]. exists [], s. auto.
      * intros (pre & rest & H & Hlen & Hnot).
        destruct pre as [|y pre]; [now subst|].
        injection H as <- _. exfalso. apply Hnot. now left.
    + apply N.eqb_neq in E. split.
      * destruct (find_char c s) as [j|]; [|discriminate].
        intros [= <-]. destruct (proj1 (IH j) eq_refl) as (pre & rest & -> & Hlen & Hnot).
        exists (x :: pre), rest. simpl. repeat split; [now rewrite Hlen|].
        intros [Hx|Hin]; [congruence|contradiction].
      * intros (pre & rest & H & Hlen & Hnot).
        destruct pre as [|y pre]; [injection H as -> _; congruence|].
        injection H as <- ->. simpl in Hlen. subst i.
        rewrite (proj2 (IH (length pre))); [reflexivity|].
        exists pre, rest. repeat split. intros Hin. apply Hnot. now right.
Qed.

Lemma rfind_char_spec (c : char) (s : str) (e : nat) :
  rfind_char c s = Some e <->
  exists init post, s = init ++ c :: post /\ length init = e /\ ~ In c post.
Proof.
  unfold rfind_char. split.
  - destruct (find_char c (rev s)) as [i|] eqn:Hf; [|discriminate].
    intros [= <-]. apply find_char_spec in Hf as (pre & rest & Hrev & Hlen & Hnot).
    assert (Hs : s = rev rest ++ c :: rev pre).
    { rewrite <- (rev_involutive s), Hrev, rev_app_distr. simpl.
      now rewrite <- app_assoc. }
    exists (rev rest), (rev pre). split; [exact Hs|]. split.
    + rewrite Hs at 1. rewrite length_app. simpl. rewrite !length_rev. lia.
    + now rewrite <- in_rev.
  - intros (init & post & -> & Hlen & Hnot).
    assert (Hf : find_char c (rev (init ++ c :: post)) = Some (length post)).
    { apply find_char_spec. exists (rev post), (rev init).
      rewrite rev_app_distr. simpl. rewrite <- app_assoc, length_rev.
      repeat split. now rewrite <- in_rev. }
    unfold char in *. rewrite Hf. simpl. f_equal. rewrite length_app. simpl. lia.
Qed.

Lemma slice_between (pre body post : str) (a b : char) :
  slice (length pre) (length (pre ++ a :: body) + 1)
    (pre ++ [a] ++ body ++ [b] ++ post) = [a] ++ body ++ [b].
Proof.
  unfold slice. rewrite skipn_app, skipn_all, Nat.sub_diag. simpl.
  replace (length (pre ++ a :: body) + 1 - length pre) with (S (S (length body)))
    by (rewrite length_app; simpl; lia).
  simpl. f_equal.
  rewrite firstn_app, firstn_all2 by lia.
  replace (S (length body) - length body) with 1 by lia. reflexivity.
Qed.

(** X1. [json_span] returns a span exactly when the reply holds an opening
    brace and, after the first one, a closing brace: the span runs from the
    first opening brace of the reply to its last closing brace, both
    included, whatever stands before and after. *)
Theorem json_span_first_to_last_brace (txt span : str) :
  json_span txt = Some span <->
  exists pre body post,
    txt = pre ++ [123%N] ++ body ++ [125%N] ++ post
    /\ ~ In 123%N pre /\ ~ In 125%N post
    /\ span = [123%N] ++ body ++ [125%N].
Proof.
  unfold json_span. split.
  - destruct (find_char 123%N txt) as [s|] eqn:Hs; [|discriminate].
    destruct (rfind_char 125%N txt) as [e|] eqn:He; [|discriminate].
    destruct (s <? e) eqn:Hlt; [|discriminate].
    apply Nat.ltb_lt in Hlt. intros [= <-].
    apply find_char_spec in Hs as (pre & rest & Hpre & Hlen & Hnot).
    apply rfind_char_spec in He as (init & post & Hinit & Hlen' & Hnot').
    assert (Hsplit : exists body, rest = body ++ 125%N :: post /\ init = pre ++ 123%N :: body).
    { rewrite Hpre in Hinit. apply app_eq_app in Hinit as [m [[Hp Hr]|[Hi Hr]]].
      - exfalso. subst pre. rewrite length_app in Hlen. lia.
      - destruct m as [|x body].
        + exfalso. rewrite app_nil_r in Hi. subst init. lia.
        + injection Hr as <- ->. exists body. auto. }
    destruct Hsplit as (body & -> & ->).
    exists pre, body, post. split; [exact Hpre|]. split; [exact Hnot|].
    split; [exact Hnot'|].
    subst s e. rewrite Hpre. apply (slice_between pre body post).
  - intros (pre & body & post & Htxt & Hnot & Hnot' & ->).
    assert (Hs : find_char 123%N txt = Some (length pre)).
    { apply find_char_spec. exists pre, (body ++ [125%N] ++ post). auto. }
    assert (He : rfind_char 125%N txt = Some (length (pre ++ 123%N :: body))).
    { apply rfind_char_spec. exists (pre ++ 123%N :: body), post.
      rewrite Htxt. repeat split; [|exact Hnot'].
      rewrite <- !app_assoc. reflexivity. }
    rewrite Hs, He.
    assert (Hlt : (length pre <? length (pre ++ 123%N :: body)) = true).
    { apply Nat.ltb_lt. rewrite length_app. simpl. lia. }
    rewrite Hlt. f_equal. rewrite Htxt. apply (slice_between pre body post).
Qed.

(** ** The name heuristic *)

Lemma name_of_lines_spec (w : World) (lines : list str) :
  (name_of_lines w lines = ([], []) /\ Forall (fun l => name_line w l = false) lines)
  \/ exists before line after first rest,
       lines = before ++ line :: after
       /\ Forall (fun l => name_line w l = false) before
       /\ split_ws (strip line) = first :: rest
       /\ (length rest = 1 \/ length rest = 2)
       /\ Forall (fun word => word_isalpha w word = true) (first :: rest)
       /\ name_of_lines w lines = (first, join (lit " ") rest).
Proof.
  induction lines as [|line lines IH].
  - left. split; [reflexivity|constructor].
  - cbn [name_of_lines]. fold (name_line w line).
    destruct (name_line w line) eqn:Hline.
    + right. unfold name_line in Hline. cbv zeta in Hline.
      apply andb_true_iff in Hline as [Hlen Halpha].
      apply andb_true_iff in Hlen as [Hlo Hhi].
      apply Nat.leb_le in Hlo, Hhi.
      destruct (split_ws (strip line)) as [|first rest] eqn:Hwords; [simpl in Hlo; lia|].
      exists [], line, lines, first, rest. simpl in Hlo, Hhi.
      repeat split; auto; [lia|].
      apply List.Forall_forall. intros word Hword.
      rewrite forallb_forall in Halpha. now apply Halpha.
    + destruct IH as [[Hnone Hall]|(before & l & after & first & rest & -> & Hb & Hw & Hl & Ha & Hn)].
      * left. split; [exact Hnone|]. now constructor.
      * right. exists (line :: before), l, after, first, rest.
        repeat split; auto.
Qed.

(** X2. [extract_name] returns the words of the first line of the text
    that has two or three words, every one alphabetic: the first word as
    first name (never empty), the other one or two joined by a space as
    last name.  When the text has no such line both names are empty. *)
Theorem extract_name_first_name_line (w : World) (cv_text : str) :
  (extract_name w cv_text = ([], [])
   /\ Forall (fun l => name_line w l = false) (splitlines cv_text))
  \/ exists before line after first rest,
       splitlines cv_text = before ++ line :: after
       /\ Forall (fun l => name_line w l = false) before
       /\ split_ws (strip line) = first :: rest
       /\ (length rest = 1 \/ length rest = 2)
       /\ Forall (fun word => word_isalpha w word = true) (first :: rest)
       /\ first <> []
       /\ extract_name w cv_text = (first, join (lit " ") rest).
Proof.
  unfold extract_name.
  destruct (name_of_lines_spec w (splitlines cv_text))
    as [H|(before & line & after & first & rest & Hs & Hb & Hw & Hl & Ha & Hn)];
    [now left|].
  right. exists before, line, after, first, rest. repeat split; auto.
  inversion Ha as [|? ? Hfirst _]; subst.
  unfold word_isalpha in Hfirst. now destruct first.
Qed.

(** ** The keys of a candidate record *)

Lemma dict_set_keeps_key (k k' : str) (v : json) (d : dict) :
  is_Some (dict_get k d) -> is_Some (dict_get k (dict_set k' v d)).
Proof.
  intros H. rewrite dict_get_set. now destruct (str_eqb k' k).
Qed.

Lemma fill_default_keeps_key (k k' v : str) (d : dict) :
  is_Some (dict_get k d) -> is_Some (dict_get k (fill_default k' v d)).
Proof.
  intros H. unfold fill_default.
  destruct (get_falsy k' d); [now apply dict_set_keeps_key|exact H].
Qed.

Lemma fill_from_hints_keeps_key (k k' : str) (hints : list str) (d : dict) :
  is_Some (dict_get k d) -> is_Some (dict_get k (fill_from_hints k' hints d)).
Proof.
  intros H. unfold fill_from_hints. destruct hints; [exact H|].
  destruct (get_falsy k' d); [now apply dict_set_keeps_key|exact H].
Qed.

Lemma fill_default_sets_key (k v : str) (d : dict) :
  is_Some (dict_get k (fill_default k v d)).
Proof.
  unfold fill_default, get_falsy.
  destruct (dict_get k d) as [x|] eqn:Hx.
  - destruct (negb (truthy x)); [rewrite dict_get_set_same|rewrite Hx]; eauto.
  - rewrite dict_get_set_same. eauto.
Qed.

Lemma fill_from_hints_sets_key (k h : str) (hints : list str) (d : dict) :
  is_Some (dict_get k (fill_from_hints k (h :: hints) d)).
Proof.
  unfold fill_from_hints, get_falsy.
  destruct (dict_get k d) as [x|] eqn:Hx.
  - destruct (negb (truthy x)); [rewrite dict_get_set_same|rewrite Hx]; eauto.
  - rewrite dict_get_set_same. eauto.
Qed.

(** X3. Whatever the judge does, the record [parse_cv] returns has a
    [first_name] and a [last_name] key; it has an [email] key whenever the
    text holds an email and a [phone] key whenever the text holds a phone
    number. *)
Theorem parse_cv_record_keys (w : World) (cv_text : str) :
  is_Some (dict_get (lit "first_name") (parse_cv w cv_text))
  /\ is_Some (dict_get (lit "last_name") (parse_cv w cv_text))
  /\ (emails (extract_contacts w cv_text) <> [] ->
      is_Some (dict_get (lit "email") (parse_cv w cv_text)))
  /\ (phones (extract_contacts w cv_text) <> [] ->
      is_Some (dict_get (lit "phone") (parse_cv w cv_text))).
Proof.
  unfold parse_cv.
  destruct (extract_name w cv_text) as [first_name last_name].
  destruct (chat_cv w _ _ _) as [txt|]; [|repeat split; intros; eexists; reflexivity].
  destruct (json_span txt) as [span|]; [|repeat split; intros; eexists; reflexivity].
  destruct (json_loads w span) as [data|]; [|repeat split; intros; eexists; reflexivity].
  repeat split.
  - do 3 (apply fill_from_hints_keeps_key || apply fill_default_keeps_key).
    apply fill_default_sets_key.
  - do 2 apply fill_from_hints_keeps_key. apply fill_default_sets_key.
  - intros Hmail. apply fill_from_hints_keeps_key.
    destruct (emails (extract_contacts w cv_text)) as [|h hints]; [congruence|].
    apply fill_from_hints_sets_key.
  - intros Hphone.
    destruct (phones (extract_contacts w cv_text)) as [|h hints]; [congruence|].
    apply fill_from_hints_sets_key.
Qed.

(** ** PDF extraction: order of the parts and the ways into the fallback *)

Lemma no_blank_pages_all_text (i : nat) (texts : list str) :
  blank_pages_from i texts = [] -> List.filter has_text texts = texts.
Proof.
  revert i. induction texts as [|t texts IH]; intros i; simpl; [reflexivity|].
  destruct (has_text t); [|discriminate].
  intros H. now rewrite (IH _ H).
Qed.

Lemma ocr_each_all (w : World) (images : list image) (acc : list str * list call) :
  Forall (fun img => is_Some (image_to_string w img)) images ->
  ocr_each w images acc =
  (fst acc ++ omap (image_to_string w) images, snd acc ++ List.map Ocr images).
Proof.
  intros H. revert acc.
  induction H as [|img images [t Ht] _ IH]; intros [parts calls]; simpl.
  - now rewrite !app_nil_r.
  - rewrite Ht, IH. simpl. now rewrite <- !app_assoc.
Qed.

Lemma scan_pages_raises (pre : list str) (rest : list (option str)) (i : nat)
    (parts : list str) (blank : list nat) :
  scan_pages (List.map Some pre ++ None :: rest) i parts blank =
  (false, (parts ++ List.filter has_text pre, blank ++ blank_pages_from i pre)).
Proof.
  revert i parts blank. induction pre as [|t pre IH]; intros i parts blank; simpl.
  - now rewrite !app_nil_r.
  - destruct (has_text t); rewrite IH; now rewrite <- app_assoc.
Qed.

(** X4. In a PDF that parses, the parts of the extracted text are the text
    layers of the pages that have one, in page order, followed by the OCR
    texts of the rasterized pages, in page order: the OCR text of a blank
    page comes after the text layer of every later page.  With no blank
    page the parts are the text layers alone. *)
Theorem pdf_text_layers_before_ocr (w : World) (p : path) (texts : list str) :
  fitz_open w p = Some (List.map Some texts) ->
  (blank_pages texts = [] -> pdf_text_parts w p = texts)
  /\ (forall lo hi images,
        In lo (blank_pages texts) -> (forall i, In i (blank_pages texts) -> lo <= i) ->
        In hi (blank_pages texts) -> (forall i, In i (blank_pages texts) -> i <= hi) ->
        convert_from_path w p (Some (lo + 1, hi + 1)) = Some images ->
        pdf_text_parts w p =
          List.filter has_text texts ++ omap (image_to_string w) images).
Proof.
  intros Hopen. unfold pdf_text_parts, pdf_run. split.
  - intros Hnone. rewrite (pdf_try_parsed w p texts Hopen), Hnone. simpl.
    now apply (no_blank_pages_all_text 0).
  - intros lo hi images Hlo Hlo_least Hhi Hhi_greatest Himages.
    rewrite (pdf_try_blank_range w p texts lo hi Hopen Hlo Hlo_least Hhi Hhi_greatest).
    now rewrite Himages.
Qed.

(** X5. In a PDF that parses and has blank pages, when the rasterizer
    raises on the request for the range, the [except] branch asks for the
    whole document: every page is rasterized and OCR'd, and the OCR texts
    follow the text layers already collected. *)
Theorem pdf_range_failure_rasterizes_everything
    (w : World) (p : path) (texts : list str) (lo hi : nat) (images : list image) :
  fitz_open w p = Some (List.map Some texts) ->
  In lo (blank_pages texts) -> (forall i, In i (blank_pages texts) -> lo <= i) ->
  In hi (blank_pages texts) -> (forall i, In i (blank_pages texts) -> i <= hi) ->
  convert_from_path w p (Some (lo + 1, hi + 1)) = None ->
  convert_from_path w p None = Some images ->
  Forall (fun img => is_Some (image_to_string w img)) images ->
  pdf_calls w p =
    Rasterize p (Some (lo + 1, hi + 1)) :: Rasterize p None :: List.map Ocr images
  /\ pdf_text_parts w p =
       List.filter has_text texts ++ omap (image_to_string w) images.
Proof.
  intros Hopen Hlo Hlo_least Hhi Hhi_greatest Hrange Hall Hocr.
  unfold pdf_calls, pdf_text_parts, pdf_run.
  rewrite (pdf_try_blank_range w p texts lo hi Hopen Hlo Hlo_least Hhi Hhi_greatest).
  rewrite Hrange. unfold pdf_except. rewrite Hall.
  rewrite (ocr_each_all w images _ Hocr). simpl. split; reflexivity.
Qed.

(** X7. When the document opens and [get_text] raises on one of its pages,
    the text layers collected from the pages before it are kept, no range
    is computed, and the whole document is rasterized and OCR'd after
    them. *)
Theorem pdf_page_failure_keeps_text_and_rasterizes_everything
    (w : World) (p : path) (before : list str) (after : list (option str))
    (images : list image) :
  fitz_open w p = Some (List.map Some before ++ None :: after) ->
  convert_from_path w p None = Some images ->
  Forall (fun img => is_Some (image_to_string w img)) images ->
  pdf_calls w p = Rasterize p None :: List.map Ocr images
  /\ pdf_text_parts w p =
       List.filter has_text before ++ omap (image_to_string w) images.
Proof.
  intros Hopen Hall Hocr.
  unfold pdf_calls, pdf_text_parts, pdf_run, pdf_try.
  rewrite Hopen, scan_pages_raises. simpl.
  unfold pdf_except. simpl. rewrite Hall.
  rewrite (ocr_each_all w images _ Hocr). simpl. split; reflexivity.
Qed.

(** The samples for the four properties above. *)

Lemma scan_pdf_parts_order :
  pdf_text_parts scan_world scan_pdf =
  [ lit "alpha"; lit "beta";
    page_label (Image scan_pdf 0); page_label (Image scan_pdf 1);
    page_label (Image scan_pdf 2); page_label (Image scan_pdf 3) ].
Proof.
  destruct (pdf_text_layers_before_ocr scan_world scan_pdf scan_texts eq_refl)
    as [_ Hparts].
  rewrite (Hparts 0 3 (List.map (Image scan_pdf) [0; 1; 2; 3])).
  - reflexivity.
  - vm_compute. auto.
  - intros i _. lia.
  - vm_compute. auto.
  - intros i Hi. vm_compute in Hi. destruct Hi as [<-|[<-|[]]]; lia.
  - reflexivity.
Defined.

Lemma flaky_rasterizer_whole_document :
  pdf_calls flaky_world scan_pdf =
    Rasterize scan_pdf (Some (1, 4)) :: Rasterize scan_pdf None
    :: List.map Ocr (List.map (Image scan_pdf) [0; 1; 2; 3])
  /\ pdf_text_parts flaky_world scan_pdf =
       List.filter has_text scan_texts
       ++ omap (image_to_string flaky_world) (List.map (Image scan_pdf) [0; 1; 2; 3]).
Proof.
  apply (pdf_range_failure_rasterizes_everything flaky_world scan_pdf scan_texts 0 3).
  - reflexivity.
  - vm_compute. auto.
  - intros i _. lia.
  - vm_compute. auto.
  - intros i Hi. vm_compute in Hi. destruct Hi as [<-|[<-|[]]]; lia.
  - reflexivity.
  - reflexivity.
  - repeat constructor; eexists; reflexivity.
Defined.

Lemma broken_pdf_stops_at_page_1 :
  pdf_text_parts broken_world broken_pdf
    = omap (image_to_string broken_world) [Image broken_pdf 0]
  /\ pdf_calls broken_world broken_pdf
     = Rasterize broken_pdf None
       :: List.map Ocr [Image broken_pdf 0] ++ [Ocr (Image broken_pdf 1)].
Proof.
  apply (pdf_fallback_stops_at_failed_page broken_world broken_pdf
           [Image broken_pdf 0] [Image broken_pdf 2] (Image broken_pdf 1)).
  - reflexivity.
  - reflexivity.
  - repeat constructor; eexists; reflexivity.
  - reflexivity.
Defined.

Lemma torn_pdf_keeps_first_page :
  pdf_calls torn_world torn_pdf =
    Rasterize torn_pdf None :: List.map Ocr (List.map (Image torn_pdf) [0; 1; 2])
  /\ pdf_text_parts torn_world torn_pdf =
       List.filter has_text [lit "alpha"]
       ++ omap (image_to_string torn_world) (List.map (Image torn_pdf) [0; 1; 2]).
Proof.
  apply (pdf_page_failure_keeps_text_and_rasterizes_everything torn_world torn_pdf
           [lit "alpha"] [Some (lit "gamma")]).
  - reflexivity.
  - reflexivity.
  - repeat constructor; eexists; reflexivity.
Defined.

(** ** What a run does to the files and to the cache *)

Lemma lookup_unlink (p q : path) (fs : list (path * file)) :
  lookup_file q (unlink p fs) = if str_eqb p q then None else lookup_file q fs.
Proof.
  induction fs as [|[p' f] fs IH]; simpl.
  - now destruct (str_eqb p q).
  - destruct (str_eqb p' p) eqn:Hp; simpl.
    + apply str_eqb_eq in Hp. subst p'. rewrite IH.
      now destruct (str_eqb p q).
    + destruct (str_eqb p' q) eqn:Hq; [|exact IH].
      destruct (str_eqb p q) eqn:Hpq; [|reflexivity].
      apply str_eqb_eq in Hq, Hpq. subst. now rewrite str_eqb_refl in Hp.
Qed.

Lemma extract_text_cache_grows (w : World) (st st1 : State) (p : path) (text : str) :
  extract_text w st p = Return (text, st1) ->
  forall k v, cache st !! k = Some v -> cache st1 !! k = Some v.
Proof.
  unfold extract_text. destruct (_cache_path w st p) as [cp|]; [|discriminate].
  destruct (cache st !! cp) as [entry|] eqn:Hentry.
  - intros [= _ <-]. auto.
  - match goal with |- context [match ?x with Return _ => _ | Raise _ => _ end] =>
      destruct x as [t|]; [|discriminate] end.
    intros [= _ <-] k v Hk. unfold cache_write.
    destruct (cache_writable w); [|exact Hk].
    assert (Hne : cp <> k).
    { intros E. subst k. unfold path, str in *. rewrite Hentry in Hk. discriminate. }
    destruct (encodable t); simpl; now rewrite lookup_insert_ne.
Qed.

(** What one task may change: it adds cache entries, leaves
    [latest_results] alone, and touches no file but its own, which it
    either leaves or removes. *)
Lemma process_one_effects (w : World) (st : State) (p : path) (job_json : dict) :
  (forall k v, cache st !! k = Some v ->
     cache (snd (process_one w st p job_json)) !! k = Some v)
  /\ latest_results (snd (process_one w st p job_json)) = latest_results st
  /\ (forall q, lookup_file q (files (snd (process_one w st p job_json))) = None
             \/ lookup_file q (files (snd (process_one w st p job_json)))
                = lookup_file q (files st))
  /\ (forall q, q <> p ->
        lookup_file q (files (snd (process_one w st p job_json)))
        = lookup_file q (files st)).
Proof.
  unfold process_one.
  destruct (extract_text w st p) as [[text st1]|e] eqn:Hx; [|simpl; auto].
  destruct (extract_text_files w st st1 p text Hx) as [Hfiles Hlatest].
  pose proof (extract_text_cache_grows w st st1 p text Hx) as Hcache.
  destruct (negb (str_truthy (strip text))); simpl.
  - rewrite Hfiles. auto.
  - unfold try_unlink. destruct (can_unlink w p); simpl.
    + rewrite Hfiles. repeat split; auto.
      * intros q. rewrite lookup_unlink. destruct (str_eqb p q); auto.
      * intros q Hq. rewrite lookup_unlink.
        destruct (str_eqb p q) eqn:E; [|reflexivity].
        apply str_eqb_eq in E. congruence.
    + rewrite Hfiles. auto.
Qed.

Lemma collect_effects (w : World) (fs : list path) (st : State) (job_json : dict)
    (acc : list dict) :
  (forall k v, cache st !! k = Some v ->
     cache (snd (collect w st fs job_json acc)) !! k = Some v)
  /\ latest_results (snd (collect w st fs job_json acc)) = latest_results st
  /\ (forall q, lookup_file q (files (snd (collect w st fs job_json acc))) = None
             \/ lookup_file q (files (snd (collect w st fs job_json acc)))
                = lookup_file q (files st))
  /\ (forall q, ~ In q fs ->
        lookup_file q (files (snd (collect w st fs job_json acc)))
        = lookup_file q (files st)).
Proof.
  revert st acc. induction fs as [|f fs IH]; intros st acc; simpl; [auto|].
  destruct (process_one_effects w st f job_json) as (Hc & Hl & Hm & Hf).
  destruct (process_one w st f job_json) as [[r|e] st'] eqn:Hone; simpl in *;
    match goal with |- context [collect w st' fs job_json ?a] =>
      destruct (IH st' a) as (Hc' & Hl' & Hm' & Hf') end;
    (repeat split;
     [ intros k v Hk; apply Hc', Hc, Hk
     | now rewrite Hl', Hl
     | intros q; destruct (Hm' q) as [Hn|He]; [now left|];
       rewrite He; apply Hm
     | intros q Hq; rewrite Hf' by tauto; apply Hf; intros ->; tauto ]).
Qed.

Lemma index_state (w : World) (st : State) (job_desc_text : str) (sched : nat -> nat) :
  files (snd (index w st job_desc_text sched))
    = files (snd (collect w st (as_completed sched (discovered st))
                    (parse_job w job_desc_text) []))
  /\ cache (snd (index w st job_desc_text sched))
     = cache (snd (collect w st (as_completed sched (discovered st))
                     (parse_job w job_desc_text) [])).
Proof.
  rewrite index_unfold.
  destruct (sort_by_score _); split; reflexivity.
Qed.

Lemma as_completed_In {A : Type} (sched : nat -> nat) (futs : list A) (x : A) :
  In x (as_completed sched futs) <-> In x futs.
Proof.
  split; apply Permutation_in; [symmetry|]; apply as_completed_perm.
Qed.

(** X9. A run never removes or changes a cache entry: whatever was cached
    before [index] is cached, with the same text, after it, whether the
    run returns or raises. *)
Theorem index_keeps_cache_entries
    (w : World) (st : State) (job_desc_text : str) (sched : nat -> nat)
    (k : path) (v : str) :
  cache st !! k = Some v ->
  cache (snd (index w st job_desc_text sched)) !! k = Some v.
Proof.
  intros Hk. destruct (index_state w st job_desc_text sched) as [_ ->].
  now apply collect_effects.
Qed.

(** X10. A run creates no file and changes none, and it leaves alone every
    file it does not process: a path that [glob] and the suffix test do not
    select (an unknown extension, a hidden file) has after the run the very
    file it had before. *)
Theorem index_touches_discovered_files_only
    (w : World) (st : State) (job_desc_text : str) (sched : nat -> nat) (q : path) :
  ~ In q (discovered st) ->
  lookup_file q (files (snd (index w st job_desc_text sched))) = lookup_file q (files st)
  /\ forall q',
       lookup_file q' (files (snd (index w st job_desc_text sched))) = None
       \/ lookup_file q' (files (snd (index w st job_desc_text sched)))
          = lookup_file q' (files st).
Proof.
  intros Hq. destruct (index_state w st job_desc_text sched) as [-> _].
  destruct (collect_effects w (as_completed sched (discovered st)) st
              (parse_job w job_desc_text) []) as (_ & _ & Hm & Hf).
  split; [|exact Hm].
  apply Hf. now rewrite as_completed_In.
Qed.

(** X11. A document whose extraction returns text that is not blank, and
    whose file the system lets the program remove, is gone from the source
    directory when [index] is over, whatever the judge answered and
    whether the run returns its results or raises. *)
Theorem index_deletes_documents_with_text
    (w : World) (st st1 : State) (job_desc_text : str) (sched : nat -> nat)
    (pre post : list path) (f : path) (text : str) :
  as_completed sched (discovered st) = pre ++ f :: post ->
  extract_text w (snd (collect w st pre (parse_job w job_desc_text) [])) f
    = Return (text, st1) ->
  strip text <> [] ->
  can_unlink w f = true ->
  lookup_file f (files (snd (index w st job_desc_text sched))) = None.
Proof.
  intros Horder Hx Htext Hcan.
  destruct (index_state w st job_desc_text sched) as [-> _].
  rewrite Horder, collect_app. simpl.
  rewrite (process_one_with_text w _ st1 f text _ Hx Htext).
  match goal with |- context [collect w ?s post ?j ?a] =>
    destruct (collect_effects w post s j a) as (_ & _ & Hm & _) end.
  destruct (Hm f) as [Hnone|Hsame]; [exact Hnone|].
  rewrite Hsame. unfold try_unlink. rewrite Hcan. simpl.
  rewrite lookup_unlink. now rewrite str_eqb_refl.
Qed.

Lemma mixed_dir_keeps_old_entry :
  cache (snd (index quiet_world mixed_dir [] in_order)) !! old_entry
  = Some (lit "an older text").
Proof.
  apply index_keeps_cache_entries. reflexivity.
Defined.

Lemma mixed_dir_keeps_notes :
  lookup_file notes_md (files (snd (index quiet_world mixed_dir [] in_order)))
    = lookup_file notes_md (files mixed_dir)
  /\ forall q',
       lookup_file q' (files (snd (index quiet_world mixed_dir [] in_order))) = None
       \/ lookup_file q' (files (snd (index quiet_world mixed_dir [] in_order)))
          = lookup_file q' (files mixed_dir).
Proof.
  apply index_touches_discovered_files_only.
  vm_compute. intros [H|[]]. discriminate H.
Defined.

Lemma tie_run_deletes_ada :
  lookup_file ada_txt (files (snd (index tie_world two_cvs [] last_first))) = None.
Proof.
  eapply (index_deletes_documents_with_text tie_world two_cvs _ [] last_first
            [bob_txt] [] ada_txt ada_text).
  - reflexivity.
  - vm_compute. reflexivity.
  - vm_compute. discriminate.
  - reflexivity.
Defined.

(** ** Plain text through the cache *)






(** ** What [index] returns and when it raises *)

Lemma insert_desc_perm (x : json * dict) (sorted l : list (json * dict)) :
  insert_desc x sorted = Return l -> Permutation (x :: sorted) l.
Proof.
  revert l. induction sorted as [|y rest IH]; intros l; simpl.
  - intros [= <-]. reflexivity.
  - destruct (py_lt (fst x) (fst y)) as [[|]|]; [| |discriminate].
    + destruct (insert_desc x rest) as [l'|]; [|discriminate].
      intros [= <-]. rewrite perm_swap. constructor. now apply IH.
    + intros [= <-]. reflexivity.
Qed.

Lemma insert_desc_raises (x : json * dict) (sorted : list (json * dict)) (e : exn) :
  insert_desc x sorted = Raise e -> e = TypeError.
Proof.
  induction sorted as [|y rest IH]; simpl; [discriminate|].
  destruct (py_lt (fst x) (fst y)) as [[|]|]; [| |now intros [= <-]].
  - destruct (insert_desc x rest) as [l'|e']; [discriminate|].
    intros [= <-]. now apply IH.
  - discriminate.
Qed.

Lemma sort_desc_perm (l sorted : list (json * dict)) :
  sort_desc l = Return sorted -> Permutation l sorted.
Proof.
  revert sorted. induction l as [|x rest IH]; intros sorted; simpl.
  - intros [= <-]. constructor.
  - destruct (sort_desc rest) as [s|]; [|discriminate].
    intros H. apply insert_desc_perm in H. rewrite <- H. constructor. now apply IH.
Qed.

Lemma sort_desc_raises (l : list (json * dict)) (e : exn) :
  sort_desc l = Raise e -> e = TypeError.
Proof.
  induction l as [|x rest IH]; simpl; [discriminate|].
  destruct (sort_desc rest) as [s|e'].
  - apply insert_desc_raises.
  - intros [= <-]. now apply IH.
Qed.

Lemma with_keys_returns (results : list dict) (keyed : list (json * dict)) :
  with_keys results = Return keyed ->
  List.map snd keyed = results
  /\ Forall (fun r => dict_has (lit "score") r = true) results.
Proof.
  revert keyed. induction results as [|r rest IH]; intros keyed; simpl.
  - intros [= <-]. split; [reflexivity|constructor].
  - unfold score_key.
    destruct (dict_get (lit "score") r) as [v|] eqn:Hv; [|discriminate].
    destruct (with_keys rest) as [l|]; [|discriminate].
    intros [= <-]. destruct (IH l eq_refl) as [Hmap Hall].
    simpl. rewrite Hmap. split; [reflexivity|].
    constructor; [|exact Hall]. unfold dict_has. now rewrite Hv.
Qed.

Lemma with_keys_raises (results : list dict) :
  (exists e, with_keys results = Raise e)
  <-> exists r, In r results /\ dict_get (lit "score") r = None.
Proof.
  induction results as [|r rest IH]; simpl.
  - split; [intros [e H]; discriminate|intros (r & [] & _)].
  - unfold score_key. destruct (dict_get (lit "score") r) as [v|] eqn:Hv.
    + destruct (with_keys rest) as [l|e] eqn:Hrest.
      * split; [intros [e H]; discriminate|].
        intros (r' & [<-|Hin] & Hnone); [congruence|].
        destruct (proj2 IH) as [e He]; [eauto|discriminate].
      * split; [|eauto]. intros _.
        destruct (proj1 IH) as (r' & Hin & Hnone); eauto.
    + split; eauto.
Qed.

Lemma with_keys_raises_key_error (results : list dict) (e : exn) :
  with_keys results = Raise e -> e = KeyError.
Proof.
  induction results as [|r rest IH]; simpl; [discriminate|].
  unfold score_key. destruct (dict_get (lit "score") r) as [v|]; [|now intros [= <-]].
  destruct (with_keys rest) as [l|e']; [discriminate|].
  intros [= <-]. now apply IH.
Qed.

Lemma without_error_clean (results : list dict) :
  Forall (fun r => dict_has (lit "error") r = false) (without_error results).
Proof.
  apply List.Forall_forall. intros r Hr. unfold without_error in Hr.
  apply filter_In in Hr as [_ Hr]. now apply negb_true_iff in Hr.
Qed.

(** X12. Whenever [index] returns, its output is a rearrangement of the
    records the tasks handed back without an ["error"] key: none is lost,
    none appears twice, none is made up; every record of the output has a
    ["score"] key and none has an ["error"] key. *)
Theorem index_output_is_the_collected_records
    (w : World) (st : State) (job_desc_text : str) (sched : nat -> nat) (out : list dict) :
  fst (index w st job_desc_text sched) = Return out ->
  Permutation (collected_results w st job_desc_text sched) out
  /\ Forall (fun r => dict_has (lit "score") r = true
                      /\ dict_has (lit "error") r = false) out.
Proof.
  rewrite index_unfold. unfold sort_by_score.
  destruct (with_keys _) as [keyed|] eqn:Hk; [|discriminate].
  destruct (sort_desc keyed) as [sorted|] eqn:Hs; [|discriminate].
  simpl. intros [= <-].
  destruct (with_keys_returns _ _ Hk) as [Hmap Hscore].
  assert (Hperm : Permutation (collected_results w st job_desc_text sched)
                    (List.map snd sorted)).
  { rewrite <- Hmap. apply Permutation_map. now apply sort_desc_perm. }
  split; [exact Hperm|].
  eapply Permutation_Forall; [exact Hperm|].
  pose proof (without_error_clean
                (fst (collect w st (as_completed sched (discovered st))
                        (parse_job w job_desc_text) []))) as Hclean.
  fold (collected_results w st job_desc_text sched) in Hclean.
  rewrite List.Forall_forall in *. intros r Hr. split; auto.
Qed.

(** X13. [index] raises [KeyError] exactly when one of the collected
    records has no ["score"] key; any other exception of the sort is a
    [TypeError]; and when [index] raises, [latest_results] is what it was
    before the run. *)
Theorem index_raises_key_error_iff_score_missing
    (w : World) (st : State) (job_desc_text : str) (sched : nat -> nat) :
  (fst (index w st job_desc_text sched) = Raise KeyError
   <-> exists r, In r (collected_results w st job_desc_text sched)
                 /\ dict_get (lit "score") r = None)
  /\ (forall e, fst (index w st job_desc_text sched) = Raise e ->
        (e = KeyError \/ e = TypeError)
        /\ latest_results (snd (index w st job_desc_text sched)) = latest_results st).
Proof.
  rewrite index_unfold. unfold sort_by_score.
  pose proof (with_keys_raises (collected_results w st job_desc_text sched)) as Hiff.
  destruct (collect_effects w (as_completed sched (discovered st)) st
              (parse_job w job_desc_text) []) as (_ & Hlatest & _ & _).
  destruct (with_keys _) as [keyed|e0] eqn:Hk.
  - destruct (sort_desc keyed) as [sorted|e1] eqn:Hs; simpl.
    + split; [|intros e H; discriminate].
      split; [discriminate|]. intros Hmiss.
      destruct (proj2 Hiff Hmiss) as [e He]. discriminate.
    + pose proof (sort_desc_raises _ _ Hs) as ->. split.
      * split; [discriminate|]. intros Hmiss.
        destruct (proj2 Hiff Hmiss) as [e He]. discriminate.
      * intros e [= <-]. auto.
  - pose proof (with_keys_raises_key_error _ _ Hk) as ->. simpl. split.
    + split; [|reflexivity]. intros _. apply Hiff. eauto.
    + intros e [= <-]. auto.
Qed.

Lemma tie_run_output_is_collected :
  Permutation (collected_results tie_world two_cvs [] in_order) [ada_90; bob_90]
  /\ Forall (fun r => dict_has (lit "score") r = true
                      /\ dict_has (lit "error") r = false) [ada_90; bob_90].
Proof.
  apply index_output_is_the_collected_records. vm_compute. reflexivity.
Defined.

(** ** The export *)







Lemma export_row_fields (r : dict) (x : row) : export_row r = Return x -> row_of r x.
Proof.
  unfold export_row. destruct (join_items _) as [items|]; [|discriminate].
  cbv zeta. destruct (row_encodable _); [|discriminate].
  intros [= <-]. repeat split.
Qed.

Lemma export_rows_fields (rs : list dict) (rows : list row) :
  export_rows rs = Return rows -> Forall2 row_of rs rows.
Proof.
  revert rows. induction rs as [|r rs IH]; intros rows; simpl.
  - intros [= <-]. constructor.
  - destruct (export_row r) as [x|] eqn:Hx; [|discriminate].
    destruct (export_rows rs) as [xs|]; [|discriminate].
    intros [= <-]. constructor; [now apply export_row_fields|now apply IH].
Qed.

(** X14. After a run that returns, the export serves the results of that
    run: [download_csv] answers 400 when the run ranked nothing, and
    otherwise, when it writes the file, the rows are the ranked results in
    rank order, one row each, with each result's name, contact and score
    fields (or the defaults for the keys a result lacks). *)
Theorem download_csv_serves_the_last_returned_run
    (w : World) (st : State) (job_desc_text : str) (sched : nat -> nat) (out : list dict) :
  fst (index w st job_desc_text sched) = Return out ->
  latest_results (snd (index w st job_desc_text sched)) = out
  /\ (out = [] -> download_csv (snd (index w st job_desc_text sched)) = None)
  /\ (forall rows,
        download_csv (snd (index w st job_desc_text sched)) = Some (Return rows) ->
        Forall2 row_of out rows).
Proof.
  rewrite index_unfold.
  destruct (sort_by_score _) as [out'|]; [|discriminate].
  simpl. intros [= ->]. split; [reflexivity|]. unfold download_csv. simpl. split.
  - now intros ->.
  - intros rows. destruct out as [|r out]; [discriminate|].
    intros [= H]. now apply export_rows_fields.
Qed.


Lemma tie_run_export :
  latest_results (snd (index tie_world two_cvs [] in_order)) = [ada_90; bob_90]
  /\ ([ada_90; bob_90] = [] ->
      download_csv (snd (index tie_world two_cvs [] in_order)) = None)
  /\ (forall rows,
        download_csv (snd (index tie_world two_cvs [] in_order)) = Some (Return rows) ->
        Forall2 row_of [ada_90; bob_90] rows).
Proof.
  apply download_csv_serves_the_last_returned_run. vm_compute. reflexivity.
Defined.


(** A first name with a lone surrogate ahead of a record with [null]
    matching points: the export raises on the first row. *)
Example surrogate_row_raises_first :
  download_csv
    {| files := []; cache := ∅;
       latest_results := [ [(lit "first_name", JStr [56448%N]); (lit "score", JNum 60)];
                           null_points ] |}
  = Some (Raise UnicodeEncodeError).
Proof. reflexivity. Qed.

(** ** A score that is not a number *)


(** ** The scoring reply over the candidate record *)

Lemma dict_get_In (k : str) (v : json) (d : dict) :
  dict_get k d = Some v -> In (k, v) d.
Proof.
  induction d as [|[k' v'] d IH]; simpl; [discriminate|].
  destruct (str_eqb k' k) eqn:E.
  - apply str_eqb_eq in E. subst. intros [= ->]. now left.
  - intros H. right. now apply IH.
Qed.

Lemma dict_get_absent (k : str) (d : dict) :
  dict_get k d = None <-> forall v, ~ In (k, v) d.
Proof.
  induction d as [|[k' v'] d IH]; simpl.
  - split; auto.
  - destruct (str_eqb k' k) eqn:E.
    + apply str_eqb_eq in E. subst. split; [discriminate|].
      intros H. exfalso. apply (H v'). now left.
    + apply str_eqb_neq in E. rewrite IH. split.
      * intros H v [[= Hk _]|Hin]; [congruence|]. now apply (H v).
      * intros H v Hin. apply (H v). now right.
Qed.

(** X16. The record a task returns is the candidate record overlaid with
    the scoring reply: a key the scoring reply does not have keeps the
    value of the candidate record, and a key it has takes a value from the
    scoring reply, whatever the candidate record said (so a scoring reply
    with an [email] or an ["error"] key overrides or marks the record). *)
Theorem process_one_scoring_reply_overrides
    (w : World) (st st1 : State) (p : path) (text : str) (job_json : dict) :
  extract_text w st p = Return (text, st1) ->
  strip text <> [] ->
  exists r,
    fst (process_one w st p job_json) = Return r
    /\ forall k,
         (dict_get k (score_candidate w (parse_cv w text) job_json) = None ->
          dict_get k r = dict_get k (parse_cv w text))
         /\ (dict_get k (score_candidate w (parse_cv w text) job_json) <> None ->
             exists v, In (k, v) (score_candidate w (parse_cv w text) job_json)
                       /\ dict_get k r = Some v).
Proof.
  intros Hx Htext. rewrite (process_one_with_text w st st1 p text job_json Hx Htext).
  eexists. split; [reflexivity|]. intros k. rewrite dict_get_merge.
  set (reply := score_candidate w (parse_cv w text) job_json).
  destruct (dict_get k (rev reply)) as [v|] eqn:Hrev.
  - split.
    + intros Hnone. apply dict_get_In in Hrev. apply in_rev in Hrev.
      exfalso. apply (proj1 (dict_get_absent k reply) Hnone v). exact Hrev.
    + intros _. exists v. split; [|reflexivity].
      apply in_rev. now apply dict_get_In.
  - split; [reflexivity|]. intros Hsome. exfalso. apply Hsome.
    apply dict_get_absent. intros v Hin.
    apply (proj1 (dict_get_absent k (rev reply)) Hrev v). now apply in_rev in Hin.
Qed.

Lemma ada_score_overlaid :
  exists r,
    fst (process_one tie_world two_cvs ada_txt []) = Return r
    /\ forall k,
         (dict_get k (score_candidate tie_world (parse_cv tie_world ada_text) []) = None ->
          dict_get k r = dict_get k (parse_cv tie_world ada_text))
         /\ (dict_get k (score_candidate tie_world (parse_cv tie_world ada_text) []) <> None ->
             exists v, In (k, v) (score_candidate tie_world (parse_cv tie_world ada_text) [])
                       /\ dict_get k r = Some v).
Proof.
  eapply (process_one_scoring_reply_overrides tie_world two_cvs _ ada_txt ada_text []).
  - vm_compute. reflexivity.
  - vm_compute. discriminate.
Defined.

(** ** A failed scoring call *)



